(** * Actuarial annuity engine: a shallow embedding of
      [utils/actuarialCalculations.ts] and the properties of its
      specification.

    Conventions of the embedding.

    - A JavaScript [number] is an IEEE-754 double.  The finite doubles are
      idealised as exact rationals ([Fin q]); [NaN] and the two infinities
      are kept as values of their own, with the IEEE rules for them.  There
      is no rounding error, overflow or underflow, and [-0] is identified
      with [0] (the program never divides by a value that can be [-0]).
    - Years, ages and loop counters are integers ([Z]); money amounts and
      percentages of a parameter record are finite rationals ([Q]).
    - Reading an index outside an array gives [undefined], and
      [undefined] used as a number is [NaN].
    - Reading a property of [undefined] throws a [TypeError]; this is the
      only way the program can throw, and it is kept as an explicit branch
      of the [result] type.
    - A plain object used as a map ([mortalityRates]) is a [gmap] over its
      own string keys.

    Limits of the model.  The program's lookup also sees the properties a
    plain object inherits from [Object.prototype]; its doubles round,
    overflow to an infinity and underflow to 0; and a double counter
    stops advancing at 2^53.  A statement that depends on one of these is
    made for the inputs on which the model is the program: names that are
    not inherited ([own_key_lookup]), loop bounds below 2^53
    ([terminating_counters]), or the ranges the form validates
    ([within_form_ranges]), where no sum or product can be [NaN]. *)

From Stdlib Require Import QArith Qround Qreduction Qminmax Qpower ZArith Lia Lqa.
From stdpp Require Import gmap strings list fin_maps.

(** ** JavaScript numbers *)

Inductive num : Type :=
| Fin (q : Q)
| PInf
| NInf
| NaN.

Arguments Fin q%_Q.

Declare Scope num_scope.
Delimit Scope num_scope with num.
Bind Scope num_scope with num.

Module Num.

(** Sign of a number, as a [comparison] with zero; [Eq] also stands for
    "no sign" ([NaN]). *)
Definition sign (x : num) : comparison :=
  match x with
  | Fin q => (q ?= 0)%Q
  | PInf => Gt
  | NInf => Lt
  | NaN => Eq
  end.

Definition sign_mul (a b : comparison) : comparison :=
  match a, b with
  | Eq, _ | _, Eq => Eq
  | Gt, Gt | Lt, Lt => Gt
  | Gt, Lt | Lt, Gt => Lt
  end.

(** The infinity of a given sign; [0 * Infinity] and [0 / 0] are [NaN]. *)
Definition inf_of_sign (c : comparison) : num :=
  match c with
  | Gt => PInf
  | Lt => NInf
  | Eq => NaN
  end.

Definition add (x y : num) : num :=
  match x, y with
  | NaN, _ | _, NaN => NaN
  | Fin a, Fin b => Fin (Qred (a + b)%Q)
  | PInf, NInf | NInf, PInf => NaN
  | PInf, _ | _, PInf => PInf
  | NInf, _ | _, NInf => NInf
  end.

Definition sub (x y : num) : num :=
  match x, y with
  | NaN, _ | _, NaN => NaN
  | Fin a, Fin b => Fin (Qred (a - b)%Q)
  | PInf, PInf | NInf, NInf => NaN
  | PInf, _ | _, NInf => PInf
  | NInf, _ | _, PInf => NInf
  end.

Definition mul (x y : num) : num :=
  match x, y with
  | NaN, _ | _, NaN => NaN
  | Fin a, Fin b => Fin (Qred (a * b)%Q)
  | _, _ => inf_of_sign (sign_mul (sign x) (sign y))
  end.

Definition div (x y : num) : num :=
  match x, y with
  | NaN, _ | _, NaN => NaN
  | Fin a, Fin b =>
      if Qeq_bool b 0 then inf_of_sign (sign x) else Fin (Qred (a / b)%Q)
  | Fin _, _ => Fin 0
  | _, Fin b =>
      inf_of_sign (sign_mul (sign x) (if Qeq_bool b 0 then Gt else sign y))
  | _, _ => NaN
  end.

(** [x < y] and [x <= y]; every comparison with [NaN] is false. *)
Definition ltb (x y : num) : bool :=
  match x, y with
  | NaN, _ | _, NaN => false
  | Fin a, Fin b => negb (Qle_bool b a)
  | NInf, NInf | PInf, _ | _, NInf => false
  | _, _ => true
  end.

Definition leb (x y : num) : bool :=
  match x, y with
  | NaN, _ | _, NaN => false
  | Fin a, Fin b => Qle_bool a b
  | NInf, _ | _, PInf => true
  | _, _ => false
  end.

(** [Math.min], [Math.round] (halves go up), [Math.ceil]. *)
Definition min (x y : num) : num :=
  match x, y with
  | NaN, _ | _, NaN => NaN
  | _, _ => if leb x y then x else y
  end.

Definition round (x : num) : num :=
  match x with
  | Fin q => Fin (inject_Z (Qfloor (q + (1 # 2))%Q))
  | _ => x
  end.

Definition ceil (x : num) : num :=
  match x with
  | Fin q => Fin (inject_Z (Qceiling q))
  | _ => x
  end.

(** [Math.pow] at an integer exponent, the only way the program calls
    it. *)
Definition pow (b : num) (e : Z) : num :=
  if (e =? 0)%Z then Fin 1
  else
    match b with
    | NaN => NaN
    | Fin q =>
        if Qeq_bool q 0 then (if (0 <? e)%Z then Fin 0 else PInf)
        else Fin (Qred (Qpower q e))
    | PInf => if (0 <? e)%Z then PInf else Fin 0
    | NInf =>
        if (0 <? e)%Z then (if Z.odd e then NInf else PInf) else Fin 0
    end.

(** [undefined] (here [None]) converts to [NaN]. *)
Definition of_value (v : option Q) : num :=
  match v with
  | Some q => Fin q
  | None => NaN
  end.

Definition of_Z (z : Z) : num := Fin (inject_Z z).

End Num.

Infix "+" := Num.add : num_scope.
Infix "-" := Num.sub : num_scope.
Infix "*" := Num.mul : num_scope.
Infix "/" := Num.div : num_scope.
Infix "<?" := Num.ltb : num_scope.
Infix "<=?" := Num.leb : num_scope.

(** ** Results of fallible code *)

Inductive exn : Type := TypeError.

(** [Timeout] is the answer of a loop whose fuel ran out before its guard
    failed. *)
Inductive result (A : Type) : Type :=
| Ok (a : A)
| Throw (e : exn)
| Timeout.

Arguments Ok {A} a.
Arguments Throw {A} e.
Arguments Timeout {A}.

Definition bind {A B : Type} (r : result A) (k : A -> result B) : result B :=
  match r with
  | Ok a => k a
  | Throw e => Throw e
  | Timeout => Timeout
  end.

Notation "'let*' x ':=' e 'in' k" := (bind e (fun x => k))
  (at level 10, x name, e at level 100, k at level 200, only parsing).

(** ** Mortality tables *)

(** [Array.from({ length: 100 }, (_, i) => Math.min(base + (i * slope), cap))] *)
Definition rate_curve (base slope cap : Q) : list Q :=
  map (fun i : nat => Qred (Qmin (base + inject_Z (Z.of_nat i) * slope)%Q cap))
      (seq 0 100).

Definition sex_curves (male female : list Q) : gmap string (list Q) :=
  <[ "male"%string := male ]> (<[ "female"%string := female ]> ∅).

Definition mortalityRates : gmap string (gmap string (list Q)) :=
  <[ "TGH05"%string :=
       sex_curves (rate_curve 0.001 0.002 0.3) (rate_curve 0.0008 0.0018 0.25) ]>
  (<[ "TGF05"%string :=
       sex_curves (rate_curve 0.001 0.002 0.3) (rate_curve 0.0008 0.0018 0.25) ]>
  (<[ "TV88-90"%string :=
       sex_curves (rate_curve 0.0009 0.0019 0.28) (rate_curve 0.0009 0.0019 0.28) ]>
  (<[ "TH00-02"%string :=
       sex_curves (rate_curve 0.0012 0.0022 0.32) (rate_curve 0.001 0.002 0.27) ]>
  (<[ "TF00-02"%string :=
       sex_curves (rate_curve 0.0012 0.0022 0.32) (rate_curve 0.001 0.002 0.27) ]>
   ∅)))).

(** [o.k]: throws when [o] is [undefined]. *)
Definition member {V : Type} (o : option (gmap string V)) (k : string)
  : result (option V) :=
  match o with
  | Some m => Ok (m !! k)
  | None => Throw TypeError
  end.

(** [o?.[k]]: [undefined] when [o] is [undefined]. *)
Definition member_opt {V : Type} (o : option (gmap string V)) (k : string)
  : option V :=
  match o with
  | Some m => m !! k
  | None => None
  end.

(** [mortalityRates[table]?.[gender] || mortalityRates.TGH05.male], the
    expression that opens both mortality functions.  An array is truthy, so
    the right operand is evaluated exactly when the left one is
    [undefined]. *)
Definition resolveCurve (table gender : string) : result (option (list Q)) :=
  match member_opt (mortalityRates !! table) gender with
  | Some rates => Ok (Some rates)
  | None => member (mortalityRates !! "TGH05"%string) "male"%string
  end.

(** [rates.length] and [rates[i]]; both throw when [rates] is [undefined]. *)
Definition array_length (rates : option (list Q)) : result Z :=
  match rates with
  | Some l => Ok (Z.of_nat (length l))
  | None => Throw TypeError
  end.

Definition array_get (rates : option (list Q)) (i : Z) : result (option Q) :=
  match rates with
  | Some l => Ok (if (i <? 0)%Z then None else l !! Z.to_nat i)
  | None => Throw TypeError
  end.

(** ** Mortality model *)

(** The loop of [calculateSurvivalProbability]; [n] is the number of
    iterations left, [i] the loop counter. *)
Fixpoint survival_loop (rates : option (list Q)) (age : Z)
    (n : nat) (i : Z) (probability : num) : result num :=
  match n with
  | O => Ok probability
  | S n' =>
      let currentAge := (age + i)%Z in
      let* len := array_length rates in
      if (len <=? currentAge)%Z then Ok probability
      else
        let* rate := array_get rates currentAge in
        survival_loop rates age n' (i + 1)%Z
          (probability * (Fin 1 - Num.of_value rate))%num
  end.

Definition calculateSurvivalProbability (age : Z) (gender table : string)
    (years : Z) : result num :=
  let* rates := resolveCurve table gender in
  survival_loop rates age (Z.to_nat years) 0 (Fin 1).

(** The loop of [calculateLifeExpectancy]. *)
Fixpoint expectancy_loop (rates : option (list Q)) (age : Z)
    (n : nat) (i : Z) (expectancy probability : num) : result num :=
  match n with
  | O => Ok expectancy
  | S n' =>
      let currentAge := (age + i)%Z in
      let* len := array_length rates in
      if (len <=? currentAge)%Z then Ok expectancy
      else
        let* rate := array_get rates currentAge in
        let probability := (probability * (Fin 1 - Num.of_value rate))%num in
        let expectancy := (expectancy + probability)%num in
        if (probability <? Fin 0.01)%num then Ok expectancy
        else expectancy_loop rates age n' (i + 1)%Z expectancy probability
  end.

Definition calculateLifeExpectancy (age : Z) (gender table : string)
  : result num :=
  let* rates := resolveCurve table gender in
  let* expectancy := expectancy_loop rates age 50 0 (Fin 0) (Fin 1) in
  Ok (Num.round (expectancy * Fin 10) / Fin 10)%num.

(** ** Annuity valuation engine *)

Record CalculationParams : Type := {
  annuityType : string;
  age : Z;
  gender : string;
  interestRate : Q;
  annualAmount : Q;
  mortalityTable : string;
  duration : option Z;
  deferralPeriod : option Z;
  growthRate : option Q;
  reversalRate : option Q;
  spouseAge : option Z
}.

Record ProjectionPoint : Type := {
  year : Z;
  payment : num;
  cumulativePayment : num;
  probability : num
}.

Record CalculationResult : Type := {
  presentValue : num;
  monthlyPayment : num;
  totalPayments : num;
  lifeExpectancy : num;
  projections : list ProjectionPoint
}.

(** One term of a present-value series:
    [amount * survivalProb * Math.pow(1 + rate, -t)]. *)
Definition discounted (amount survivalProb rate : num) (t : Z) : num :=
  (amount * survivalProb * Num.pow (Fin 1 + rate) (- t))%num.

(** [for (let t = 1; t <= 50; t++) { ...; if (survivalProb < 0.01) break; }]
    of [calculateSimpleAnnuity]; [n] counts the iterations left. *)
Fixpoint simple_loop (age : Z) (gender table : string)
    (annualAmount discountRate : num) (n : nat) (t : Z) (pv : num)
  : result num :=
  match n with
  | O => Ok pv
  | S n' =>
      let* survivalProb := calculateSurvivalProbability age gender table t in
      let pv := (pv + discounted annualAmount survivalProb discountRate t)%num in
      if (survivalProb <? Fin 0.01)%num then Ok pv
      else simple_loop age gender table annualAmount discountRate n' (t + 1)%Z pv
  end.

Definition calculateSimpleAnnuity (age : Z) (gender table : string)
    (annualAmount discountRate : num) : result num :=
  simple_loop age gender table annualAmount discountRate 50 1 (Fin 0).

Definition calculateReversibleAnnuity (age : Z) (gender : string)
    (spouseAge : Z) (table : string)
    (annualAmount discountRate reversalRate : num) : result num :=
  let* primaryAnnuity :=
    calculateSimpleAnnuity age gender table annualAmount discountRate in
  let spouseGender :=
    if String.eqb gender "male" then "female"%string else "male"%string in
  let reversalAmount := (annualAmount * (reversalRate / Fin 100))%num in
  let* spouseAnnuity :=
    calculateSimpleAnnuity spouseAge spouseGender table reversalAmount
      discountRate in
  Ok (primaryAnnuity + spouseAnnuity * Fin 0.6)%num.

(** [for (let t = 1; t <= duration; t++)] of [calculateTemporaryAnnuity]:
    no early exit. *)
Fixpoint temporary_loop (age : Z) (gender table : string)
    (annualAmount discountRate : num) (n : nat) (t : Z) (pv : num)
  : result num :=
  match n with
  | O => Ok pv
  | S n' =>
      let* survivalProb := calculateSurvivalProbability age gender table t in
      let pv := (pv + discounted annualAmount survivalProb discountRate t)%num in
      temporary_loop age gender table annualAmount discountRate n' (t + 1)%Z pv
  end.

Definition calculateTemporaryAnnuity (age : Z) (gender table : string)
    (annualAmount discountRate : num) (duration : Z) : result num :=
  temporary_loop age gender table annualAmount discountRate
    (Z.to_nat duration) 1 (Fin 0).

(** [for (let t = deferralPeriod + 1; t <= 50; t++)]: the body is that of
    the simple annuity, run [50 - deferralPeriod] times at most. *)
Definition calculateDeferredAnnuity (age : Z) (gender table : string)
    (annualAmount discountRate : num) (deferralPeriod : Z) : result num :=
  simple_loop age gender table annualAmount discountRate
    (Z.to_nat (50 - deferralPeriod)) (deferralPeriod + 1)%Z (Fin 0).

Fixpoint growing_loop (age : Z) (gender table : string)
    (annualAmount realDiscountRate growth : num) (n : nat) (t : Z) (pv : num)
  : result num :=
  match n with
  | O => Ok pv
  | S n' =>
      let* survivalProb := calculateSurvivalProbability age gender table t in
      let payment := (annualAmount * Num.pow (Fin 1 + growth) (t - 1))%num in
      let pv := (pv + discounted payment survivalProb realDiscountRate t)%num in
      if (survivalProb <? Fin 0.01)%num then Ok pv
      else growing_loop age gender table annualAmount realDiscountRate growth
             n' (t + 1)%Z pv
  end.

Definition calculateGrowingAnnuity (age : Z) (gender table : string)
    (annualAmount discountRate growthRate : num) : result num :=
  let growth := (growthRate / Fin 100)%num in
  let realDiscountRate := ((discountRate - growth) / (Fin 1 + growth))%num in
  growing_loop age gender table annualAmount realDiscountRate growth
    50 1 (Fin 0).

(** The payment of one projected year, before rounding: the three [if]
    statements of the projection loop, in their order.  (The source has a
    lone closing parenthesis after the first assignment; it is read as a
    typing slip.) *)
Definition projected_payment (annuityType : string)
    (annualAmount growthRate : num) (duration deferralPeriod : Z) (year : Z)
  : num :=
  let payment := annualAmount in
  let payment :=
    if String.eqb annuityType "growing"
    then (annualAmount * Num.pow (Fin 1 + growthRate / Fin 100) (year - 1))%num
    else payment in
  let payment :=
    if String.eqb annuityType "temporary" && (duration <? year)%Z
    then Fin 0 else payment in
  let payment :=
    if String.eqb annuityType "deferred" && (year <=? deferralPeriod)%Z
    then Fin 0 else payment in
  payment.

(** [for (let year = 1; year <= Math.min(30, Math.ceil(lifeExpectancy)); year++)].
    The state is the running [totalPayments] and the array built by
    [push]; the loop ends when its guard fails, and [fuel] bounds the
    number of times the guard is tested. *)
Fixpoint projection_loop (annuityType : string) (age : Z)
    (gender mortalityTable : string) (annualAmount growthRate : num)
    (duration deferralPeriod : Z) (lifeExpectancy : num)
    (fuel : nat) (year : Z) (totalPayments : num)
    (projections : list ProjectionPoint)
  : result (num * list ProjectionPoint) :=
  match fuel with
  | O => Timeout
  | S fuel' =>
      if (Num.of_Z year <=? Num.min (Fin 30) (Num.ceil lifeExpectancy))%num
      then
        let* survivalProb :=
          calculateSurvivalProbability age gender mortalityTable year in
        let payment :=
          projected_payment annuityType annualAmount growthRate duration
            deferralPeriod year in
        let totalPayments := (totalPayments + payment * survivalProb)%num in
        projection_loop annuityType age gender mortalityTable annualAmount
          growthRate duration deferralPeriod lifeExpectancy fuel' (year + 1)%Z
          totalPayments
          (projections ++
             [ {| year := year;
                  payment := Num.round payment;
                  cumulativePayment := Num.round totalPayments;
                  probability :=
                    (Num.round (survivalProb * Fin 100) / Fin 100)%num |} ])
      else Ok (totalPayments, projections)
  end.

(** The guard is tested 31 times at most: [Math.min(30, _)] is never
    above 30. *)
Definition projection_fuel : nat := 31.

Definition calculateAnnuity (params : CalculationParams)
  : result CalculationResult :=
  let annuityType := params.(annuityType) in
  let age := params.(age) in
  let gender := params.(gender) in
  let annualAmount := Fin params.(annualAmount) in
  let mortalityTable := params.(mortalityTable) in
  let duration := default 30%Z params.(duration) in
  let deferralPeriod := default 0%Z params.(deferralPeriod) in
  let growthRate := Fin (default 0%Q params.(growthRate)) in
  let reversalRate := Fin (default 60%Q params.(reversalRate)) in
  let spouseAge := default (age - 3)%Z params.(spouseAge) in
  let discountRate := (Fin params.(interestRate) / Fin 100)%num in
  let* lifeExpectancy := calculateLifeExpectancy age gender mortalityTable in
  let* presentValue :=
    if String.eqb annuityType "simple" then
      calculateSimpleAnnuity age gender mortalityTable annualAmount discountRate
    else if String.eqb annuityType "reversible" then
      calculateReversibleAnnuity age gender spouseAge mortalityTable
        annualAmount discountRate reversalRate
    else if String.eqb annuityType "temporary" then
      calculateTemporaryAnnuity age gender mortalityTable annualAmount
        discountRate duration
    else if String.eqb annuityType "deferred" then
      calculateDeferredAnnuity age gender mortalityTable annualAmount
        discountRate deferralPeriod
    else if String.eqb annuityType "growing" then
      calculateGrowingAnnuity age gender mortalityTable annualAmount
        discountRate growthRate
    else
      calculateSimpleAnnuity age gender mortalityTable annualAmount discountRate
  in
  let* loop_state :=
    projection_loop annuityType age gender mortalityTable annualAmount
      growthRate duration deferralPeriod lifeExpectancy projection_fuel 1
      (Fin 0) [] in
  Ok {| presentValue := Num.round presentValue;
        monthlyPayment := Num.round (annualAmount / Fin 12);
        totalPayments := Num.round (fst loop_state);
        lifeExpectancy := lifeExpectancy;
        projections := snd loop_state |}.

(** ** The specification's reading of life expectancy

    [lifeExpectancy_spec] follows the words of the specification: the
    survival probabilities of the successive years are summed up to a
    50-year horizon, the sum stops after the first year whose probability
    is below 0.01, and the result is rounded to one decimal place.  With
    [table_end_stops] the sum also stops at the first year whose starting
    age [age + (t - 1)] is past the end of the curve. *)

Fixpoint accumulate_survival (table_end_stops : bool) (len : Z) (age : Z)
    (gender table : string) (n : nat) (t : Z) (expectancy : num)
  : result num :=
  match n with
  | O => Ok expectancy
  | S n' =>
      if table_end_stops && (len <=? age + (t - 1))%Z then Ok expectancy
      else
        let* probability := calculateSurvivalProbability age gender table t in
        let expectancy := (expectancy + probability)%num in
        if (probability <? Fin 0.01)%num then Ok expectancy
        else accumulate_survival table_end_stops len age gender table
               n' (t + 1)%Z expectancy
  end.

Definition lifeExpectancy_spec (table_end_stops : bool) (age : Z)
    (gender table : string) : result num :=
  let* rates := resolveCurve table gender in
  let* len := array_length rates in
  let* expectancy :=
    accumulate_survival table_end_stops len age gender table 50 1 (Fin 0) in
  Ok (Num.round (expectancy * Fin 10) / Fin 10)%num.

(** ** Notions used by the statements

    Predicates and closed forms the theorems are stated with, and the
    parameter records of the scenarios. *)

Definition is_ok {A : Type} (r : result A) : Prop := exists a, r = Ok a.

(** A well-formed curve: 100 yearly rates, each a probability. *)
Definition curve_ok (l : list Q) : bool :=
  (length l =? 100)%nat && forallb (fun r => Qle_bool 0 r && Qle_bool r 1) l.

Definition default_curve : list Q := rate_curve 0.001 0.002 0.3.

(** The factor [1 - rates[c]] applied for the year lived at age [c]. *)
Definition survival_factor (l : list Q) (c : Z) : num :=
  (Fin 1 - Num.of_value (if (c <? 0)%Z then None else l !! Z.to_nat c))%num.

(** [survivalProbability(age, sex, table, n + 1) <=
     survivalProbability(age, sex, table, n)], both calls returning. *)
Definition survival_non_increasing (age : Z) (gender table : string) (n : Z)
  : Prop :=
  exists a b,
    calculateSurvivalProbability age gender table (n + 1) = Ok a /\
    calculateSurvivalProbability age gender table n = Ok b /\
    (a <=? b)%num = true.

(** The number a call of [calculateSurvivalProbability] returns. *)
Definition survival_value (age : Z) (gender table : string) (year : Z) : num :=
  match calculateSurvivalProbability age gender table year with
  | Ok v => v
  | _ => NaN
  end.

(** The last year of the projection: the largest integer not above
    [Math.min(30, Math.ceil(lifeExpectancy))], 0 when that is no number. *)
Definition projection_count (le : num) : Z :=
  match Num.min (Fin 30) (Num.ceil le) with
  | Fin q => Qfloor q
  | _ => 0
  end.

(** The points pushed for [n] successive years from [year] on, with the
    final running total. *)
Fixpoint projection_points (surv pay : Z -> num) (n : nat) (year : Z)
    (total : num) : num * list ProjectionPoint :=
  match n with
  | O => (total, [])
  | S n' =>
      let total' := (total + pay year * surv year)%num in
      let rest := projection_points surv pay n' (year + 1) total' in
      (fst rest,
       {| year := year;
          payment := Num.round (pay year);
          cumulativePayment := Num.round total';
          probability := (Num.round (surv year * Fin 100) / Fin 100)%num |}
       :: snd rest)
  end.

(** The [switch] of [calculateAnnuity]. *)
Definition present_value_by_type (params : CalculationParams) : result num :=
  let annuityType := params.(annuityType) in
  let age := params.(age) in
  let gender := params.(gender) in
  let annualAmount := Fin params.(annualAmount) in
  let mortalityTable := params.(mortalityTable) in
  let discountRate := (Fin params.(interestRate) / Fin 100)%num in
  if String.eqb annuityType "simple" then
    calculateSimpleAnnuity age gender mortalityTable annualAmount discountRate
  else if String.eqb annuityType "reversible" then
    calculateReversibleAnnuity age gender
      (default (age - 3)%Z params.(spouseAge)) mortalityTable
      annualAmount discountRate (Fin (default 60%Q params.(reversalRate)))
  else if String.eqb annuityType "temporary" then
    calculateTemporaryAnnuity age gender mortalityTable annualAmount
      discountRate (default 30%Z params.(duration))
  else if String.eqb annuityType "deferred" then
    calculateDeferredAnnuity age gender mortalityTable annualAmount
      discountRate (default 0%Z params.(deferralPeriod))
  else if String.eqb annuityType "growing" then
    calculateGrowingAnnuity age gender mortalityTable annualAmount
      discountRate (Fin (default 0%Q params.(growthRate)))
  else
    calculateSimpleAnnuity age gender mortalityTable annualAmount discountRate.

(** The unrounded payment of a projected year, for a parameter record. *)
Definition payment_of (params : CalculationParams) (year : Z) : num :=
  projected_payment params.(annuityType) (Fin params.(annualAmount))
    (Fin (default 0%Q params.(growthRate)))
    (default 30%Z params.(duration)) (default 0%Z params.(deferralPeriod))
    year.

(** The result record, from the life expectancy and the present value. *)
Definition result_of (params : CalculationParams) (le pv : num)
  : CalculationResult :=
  let run :=
    projection_points
      (survival_value params.(age) params.(gender) params.(mortalityTable))
      (payment_of params) (Z.to_nat (projection_count le)) 1 (Fin 0) in
  {| presentValue := Num.round pv;
     monthlyPayment := Num.round (Fin params.(annualAmount) / Fin 12);
     totalPayments := Num.round (fst run);
     lifeExpectancy := le;
     projections := snd run |}.

(** The last cumulative payment is the total of the result. *)
Definition cumulative_closes (r : CalculationResult) : Prop :=
  forall pt, last r.(projections) = Some pt ->
             pt.(cumulativePayment) = r.(totalPayments).

(** The cumulative payment never goes down from one year to the next. *)
Definition cumulative_non_decreasing (r : CalculationResult) : Prop :=
  forall i a b,
    r.(projections) !! i = Some a -> r.(projections) !! S i = Some b ->
    (a.(cumulativePayment) <=? b.(cumulativePayment))%num = true.

Definition scenarioA : CalculationParams :=
  {| annuityType := "simple"; age := 65; gender := "male";
     interestRate := 2.5; annualAmount := 12000; mortalityTable := "TGH05";
     duration := None; deferralPeriod := None; growthRate := None;
     reversalRate := None; spouseAge := None |}.

Definition scenarioD : CalculationParams :=
  {| annuityType := "reversible"; age := 65; gender := "male";
     interestRate := 2.5; annualAmount := 12000; mortalityTable := "TGH05";
     duration := None; deferralPeriod := None; growthRate := None;
     reversalRate := Some 60%Q; spouseAge := Some 62%Z |}.

Definition growing_2_percent : CalculationParams :=
  {| annuityType := "growing"; age := 65; gender := "male";
     interestRate := 2.5; annualAmount := 12000; mortalityTable := "TGH05";
     duration := None; deferralPeriod := None; growthRate := Some 2%Q;
     reversalRate := None; spouseAge := None |}.

(** A growth rate of -200 %: the payment changes sign every year. *)
Definition growing_minus_200_percent : CalculationParams :=
  {| annuityType := "growing"; age := 65; gender := "male";
     interestRate := 2.5; annualAmount := 12000; mortalityTable := "TGH05";
     duration := None; deferralPeriod := None; growthRate := Some (-200)%Q;
     reversalRate := None; spouseAge := None |}.

Definition temporary_5_years : CalculationParams :=
  {| annuityType := "temporary"; age := 65; gender := "male";
     interestRate := 2.5; annualAmount := 12000; mortalityTable := "TGH05";
     duration := Some 5%Z; deferralPeriod := None; growthRate := None;
     reversalRate := None; spouseAge := None |}.

(** The five annuity types with a [case] of their own in the [switch]. *)
Definition known_type (t : string) : bool :=
  String.eqb t "simple" || String.eqb t "reversible"
  || String.eqb t "temporary" || String.eqb t "deferred"
  || String.eqb t "growing".

(** [{ ...params, annuityType: t }] *)
Definition with_type (params : CalculationParams) (t : string)
  : CalculationParams :=
  {| annuityType := t;
     age := params.(age);
     gender := params.(gender);
     interestRate := params.(interestRate);
     annualAmount := params.(annualAmount);
     mortalityTable := params.(mortalityTable);
     duration := params.(duration);
     deferralPeriod := params.(deferralPeriod);
     growthRate := params.(growthRate);
     reversalRate := params.(reversalRate);
     spouseAge := params.(spouseAge) |}.

Definition deferred_3_years : CalculationParams :=
  {| annuityType := "deferred"; age := 65; gender := "female";
     interestRate := 2.5; annualAmount := 12000; mortalityTable := "TGF05";
     duration := None; deferralPeriod := Some 3%Z; growthRate := None;
     reversalRate := None; spouseAge := None |}.

Definition centenarian : CalculationParams :=
  {| annuityType := "simple"; age := 100; gender := "female";
     interestRate := 2.5; annualAmount := 12000; mortalityTable := "TGF05";
     duration := None; deferralPeriod := None; growthRate := None;
     reversalRate := None; spouseAge := None |}.

Definition unborn : CalculationParams :=
  {| annuityType := "growing"; age := -1; gender := "male";
     interestRate := 2.5; annualAmount := 12000; mortalityTable := "TGH05";
     duration := None; deferralPeriod := None; growthRate := Some 2%Q;
     reversalRate := None; spouseAge := None |}.

Definition perpetual_typo : CalculationParams :=
  {| annuityType := "perpetual"; age := 65; gender := "male";
     interestRate := 2.5; annualAmount := 12000; mortalityTable := "TGH05";
     duration := Some 5%Z; deferralPeriod := Some 3%Z;
     growthRate := Some 2%Q; reversalRate := None; spouseAge := None |}.

(** ** Callers: the calculation history

    [Calculator.onSubmit] stores each result at the head of the history
    and keeps 50 entries; the History page filters the stored list,
    selects entries by their ids and deletes them.  The persisted JSON
    text is taken as the list it encodes. *)

Module History.

Record HistoryItem : Type := {
  id : string;
  type : string;
  data : CalculationParams;
  result : CalculationResult;
  timestamp : string
}.

(** [history.unshift(historyItem); ... history.slice(0, 50)] *)
Definition saveToHistory (historyItem : HistoryItem)
    (history : list HistoryItem) : list HistoryItem :=
  take 50 (historyItem :: history).

(** [selectedItems.includes(id)] *)
Definition includes (x : string) (l : list string) : bool :=
  existsb (String.eqb x) l.

(** The effect that recomputes [filteredHistory].  [matches searchTerm
    item] stands for the search test
    [item.type.toLowerCase().includes(searchTerm.toLowerCase()) ||
     item.data.annualAmount.toString().includes(searchTerm)]; an empty
    search term is falsy and skips it. *)
Definition filterHistory (matches : string -> HistoryItem -> bool)
    (history : list HistoryItem) (searchTerm filterType : string)
  : list HistoryItem :=
  let filtered := history in
  let filtered :=
    if String.eqb searchTerm "" then filtered
    else List.filter (matches searchTerm) filtered in
  let filtered :=
    if negb (String.eqb filterType "all")
    then List.filter (fun item => String.eqb item.(type) filterType) filtered
    else filtered in
  filtered.

(** [prev.includes(id) ? prev.filter(item => item !== id) : [...prev, id]] *)
Definition handleSelectItem (id : string) (prev : list string) : list string :=
  if includes id prev
  then List.filter (fun item => negb (String.eqb item id)) prev
  else prev ++ [id].

Definition handleSelectAll (selectedItems : list string)
    (filteredHistory : list HistoryItem) : list string :=
  if (length selectedItems =? length filteredHistory)%nat then []
  else map id filteredHistory.

(** The state the delete handlers update. *)
Record State : Type := {
  history : list HistoryItem;
  selectedItems : list string
}.

Definition handleDelete (target : string) (st : State) : State :=
  {| history :=
       List.filter (fun item => negb (String.eqb item.(id) target))
         st.(history);
     selectedItems :=
       List.filter (fun item => negb (String.eqb item target))
         st.(selectedItems) |}.

Definition handleBulkDelete (st : State) : State :=
  {| history :=
       List.filter (fun item => negb (includes item.(id) st.(selectedItems)))
         st.(history);
     selectedItems := [] |}.

(** The entries [handleExportSelected] exports; it reports an error and
    exports nothing when there is none. *)
Definition selectedData (st : State) : list HistoryItem :=
  List.filter (fun item => includes item.(id) st.(selectedItems))
    st.(history).

End History.

(** A stored entry, for the examples. *)
Definition sample_item (name : string) : History.HistoryItem :=
  {| History.id := name;
     History.type := "simple";
     History.data := scenarioA;
     History.result := result_of scenarioA (Fin 6) (Fin 61982);
     History.timestamp := "2024-01-01T00:00:00.000Z" |}.

Definition sample_state : History.State :=
  {| History.history := [sample_item "3"; sample_item "2"; sample_item "1"];
     History.selectedItems := ["1"; "3"]%string |}.

(** ** Inputs on which the model is the program *)

(** The property names a plain object inherits from [Object.prototype]
    (ECMAScript, with its Annex B).  [o[name]] is [undefined] for a name
    that is neither an own key of [o] nor one of these. *)
Definition inherited_names : list string :=
  [ "constructor"; "__proto__"; "hasOwnProperty"; "isPrototypeOf";
    "propertyIsEnumerable"; "toLocaleString"; "toString"; "valueOf";
    "__defineGetter__"; "__defineSetter__"; "__lookupGetter__";
    "__lookupSetter__" ]%string.

Definition plain_name (s : string) : bool :=
  negb (existsb (String.eqb s) inherited_names).

(** [mortalityRates[table]?.[gender]] is decided by own keys alone. *)
Definition own_key_lookup (table gender : string) : Prop :=
  plain_name table = true /\ plain_name gender = true.

(** The two loops whose bound comes from the record end: their counter is
    an exact integer below 2^53. *)
Definition terminating_counters (params : CalculationParams) : Prop :=
  (params.(annuityType) = "temporary"%string ->
   (default 30 params.(duration) < 2 ^ 53)%Z) /\
  (params.(annuityType) = "deferred"%string ->
   (- 2 ^ 53 < default 0 params.(deferralPeriod))%Z).

Definition in_range_Z (lo hi z : Z) : bool := (lo <=? z)%Z && (z <=? hi)%Z.

Definition in_range_Q (lo hi q : Q) : bool := Qle_bool lo q && Qle_bool q hi.

Definition table_ids : list string :=
  [ "TGH05"; "TGF05"; "TV88-90"; "TH00-02"; "TF00-02" ]%string.

(** The ranges [Calculator.tsx] validates before it calls the engine: age
    and spouse age 18 to 100, sex and table from the two lists, interest
    rate 0 to 10, annual amount 1 or more, duration 1 to 50, deferral
    period 0 to 30, growth rate 0 to 10, reversal rate 0 to 100.  Fields
    that are absent are read with the engine's defaults. *)
Definition within_form_ranges (params : CalculationParams) : bool :=
  in_range_Z 18 100 params.(age)
  && (String.eqb params.(gender) "male" || String.eqb params.(gender) "female")
  && existsb (String.eqb params.(mortalityTable)) table_ids
  && in_range_Q 0 10 params.(interestRate)
  && Qle_bool 1 params.(annualAmount)
  && in_range_Z 1 50 (default 30%Z params.(duration))
  && in_range_Z 0 30 (default 0%Z params.(deferralPeriod))
  && in_range_Q 0 10 (default 0%Q params.(growthRate))
  && in_range_Q 0 100 (default 60%Q params.(reversalRate))
  && in_range_Z 18 100 (default (params.(age) - 3)%Z params.(spouseAge)).

(** * Properties *)

(** ** Arithmetic of finite numbers *)

Lemma Ok_inj {A : Type} (a b : A) : Ok a = Ok b -> a = b.
Proof. intros H. injection H as H. exact H. Qed.

Section NumFacts.

Lemma leb_Fin (a b : Q) : (Fin a <=? Fin b)%num = true <-> (a <= b)%Q.
Proof. apply Qle_bool_iff. Qed.

(** Multiplying a probability by a survival factor [1 - rate]. *)
Lemma survive_step (a r : Q) :
  (0 <= a)%Q -> (0 <= r <= 1)%Q ->
  exists b, (Fin a * (Fin 1 - Fin r))%num = Fin b /\ (0 <= b <= a)%Q.
Proof.
  intros Ha [Hr0 Hr1]. eexists; split; [reflexivity|].
  rewrite !Qred_correct. split; nra.
Qed.

Lemma round_mono (a b : Q) :
  (a <= b)%Q -> (Num.round (Fin a) <=? Num.round (Fin b))%num = true.
Proof.
  intros H. unfold Num.round. apply leb_Fin. rewrite <- Zle_Qle.
  apply Qfloor_resp_le. lra.
Qed.

Lemma pow_nonneg (q : Q) (e : Z) :
  (0 <= q)%Q -> (0 <= e)%Z ->
  exists b, Num.pow (Fin q) e = Fin b /\ (0 <= b)%Q.
Proof.
  intros Hq He. unfold Num.pow.
  destruct (e =? 0)%Z eqn:E0; [exists 1%Q; split; [reflexivity|lra]|].
  apply Z.eqb_neq in E0.
  destruct (Qeq_bool q 0).
  - destruct (0 <? e)%Z eqn:E; [exists 0%Q; split; [reflexivity|lra]|].
    apply Z.ltb_ge in E. lia.
  - eexists; split; [reflexivity|]. rewrite Qred_correct.
    apply Qpower_0_le; assumption.
Qed.

End NumFacts.

(** ** The reference curves *)

Section Curves.

Lemma tables_ok :
  map_Forall (fun _ t => map_Forall (fun _ l => curve_ok l = true) t)
    mortalityRates.
Proof.
  unfold mortalityRates, sex_curves.
  repeat (apply map_Forall_insert_2;
          [repeat (apply map_Forall_insert_2; [vm_compute; reflexivity|]);
           apply map_Forall_empty|]).
  apply map_Forall_empty.
Qed.

Lemma default_curve_lookup :
  member (mortalityRates !! "TGH05"%string) "male"%string
  = Ok (Some default_curve).
Proof. vm_compute. reflexivity. Qed.

Lemma default_curve_ok : curve_ok default_curve = true.
Proof. vm_compute. reflexivity. Qed.

(** The lookup either finds the curve of the pair or falls back to the
    default one; the fallback itself cannot throw. *)
Lemma resolveCurve_cases (table gender : string) :
  (exists t l, mortalityRates !! table = Some t /\ t !! gender = Some l /\
               resolveCurve table gender = Ok (Some l))
  \/ (member_opt (mortalityRates !! table) gender = None /\
      resolveCurve table gender = Ok (Some default_curve)).
Proof.
  unfold resolveCurve.
  destruct (mortalityRates !! table) as [t|] eqn:Et; simpl.
  - destruct (t !! gender) as [l|] eqn:El.
    + left. exists t, l. auto.
    + right. split; [reflexivity|]. apply default_curve_lookup.
  - right. split; [reflexivity|]. apply default_curve_lookup.
Qed.

Lemma resolveCurve_ok (table gender : string) :
  exists l, resolveCurve table gender = Ok (Some l) /\ curve_ok l = true.
Proof.
  destruct (resolveCurve_cases table gender)
    as [(t & l & Ht & Hl & Hr) | [_ Hr]].
  - exists l. split; [assumption|].
    exact (tables_ok _ _ Ht _ _ Hl).
  - exists default_curve. split; [assumption|apply default_curve_ok].
Qed.

Lemma curve_ok_length (l : list Q) :
  curve_ok l = true -> length l = 100%nat.
Proof.
  unfold curve_ok. intros H. apply andb_prop in H as [H _].
  apply Nat.eqb_eq. exact H.
Qed.

Lemma curve_ok_lookup (l : list Q) (i : nat) (r : Q) :
  curve_ok l = true -> l !! i = Some r -> (0 <= r <= 1)%Q.
Proof.
  unfold curve_ok. intros H Hi. apply andb_prop in H as [_ H].
  rewrite forallb_forall in H.
  assert (Hin : In r l).
  { apply list_elem_of_In. eapply list_elem_of_lookup_2. exact Hi. }
  specialize (H r Hin). apply andb_prop in H as [H0 H1].
  split; apply Qle_bool_iff; assumption.
Qed.

End Curves.

(** ** Survival probabilities *)

Section Survival.

Variable l : list Q.
Local Abbreviation len := (Z.of_nat (length l)).

Lemma survival_loop_unfold (age : Z) (n : nat) (i : Z) (p : num) :
  survival_loop (Some l) age (S n) i p
  = if (len <=? age + i)%Z then Ok p
    else survival_loop (Some l) age n (i + 1)
           (p * survival_factor l (age + i))%num.
Proof. reflexivity. Qed.

Lemma survival_loop_ok (age : Z) (n : nat) (i : Z) (p : num) :
  is_ok (survival_loop (Some l) age n i p).
Proof.
  revert i p. induction n as [|n IH]; intros i p.
  - exists p. reflexivity.
  - rewrite survival_loop_unfold.
    destruct (len <=? age + i)%Z; [exists p; reflexivity|apply IH].
Qed.

(** One more year multiplies by one more factor, unless the table ended
    before it. *)
Lemma survival_loop_snoc (age : Z) (n : nat) (i : Z) (p : num) :
  survival_loop (Some l) age (S n) i p
  = let* q := survival_loop (Some l) age n i p in
    if (len <=? age + (i + Z.of_nat n))%Z then Ok q
    else Ok (q * survival_factor l (age + (i + Z.of_nat n)))%num.
Proof.
  revert i p. induction n as [|n IH]; intros i p.
  - rewrite survival_loop_unfold. cbn [survival_loop bind Z.of_nat].
    rewrite Z.add_0_r. reflexivity.
  - rewrite survival_loop_unfold.
    rewrite (survival_loop_unfold age n i p).
    destruct (len <=? age + i)%Z eqn:E.
    + cbn [bind].
      replace (len <=? age + (i + Z.of_nat (S n)))%Z with true; [reflexivity|].
      symmetry. apply Z.leb_le. apply Z.leb_le in E. lia.
    + rewrite IH.
      replace (i + 1 + Z.of_nat n)%Z with (i + Z.of_nat (S n))%Z by lia.
      reflexivity.
Qed.

Hypothesis Hl : curve_ok l = true.

Lemma survival_factor_range (c : Z) :
  (0 <= c < len)%Z ->
  exists r, survival_factor l c = (Fin 1 - Fin r)%num /\ (0 <= r <= 1)%Q.
Proof.
  intros [H0 H1]. unfold survival_factor.
  replace (c <? 0)%Z with false by (symmetry; apply Z.ltb_ge; lia).
  destruct (l !! Z.to_nat c) as [r|] eqn:E.
  - exists r. split; [reflexivity|]. eapply curve_ok_lookup; eassumption.
  - apply lookup_ge_None in E. lia.
Qed.

(** From a non-negative age on, the running product stays a finite
    number between 0 and its starting value. *)
Lemma survival_loop_range (age : Z) (n : nat) (i : Z) (a : Q) :
  (0 <= age + i)%Z -> (0 <= a)%Q ->
  exists b, survival_loop (Some l) age n i (Fin a) = Ok (Fin b)
            /\ (0 <= b <= a)%Q.
Proof.
  revert i a. induction n as [|n IH]; intros i a Hi Ha.
  - exists a. split; [reflexivity|lra].
  - rewrite survival_loop_unfold.
    destruct (len <=? age + i)%Z eqn:E.
    + exists a. split; [reflexivity|lra].
    + apply Z.leb_gt in E.
      destruct (survival_factor_range (age + i)) as (r & -> & Hr); [lia|].
      destruct (survive_step a r Ha Hr) as (b & -> & Hb).
      destruct (IH (i + 1)%Z b) as (c & Hc & Hcb); [lia|lra|].
      exists c. split; [assumption|lra].
Qed.

End Survival.

Section MortalityModel.

(** C7, as amended. For an age that is not negative and a sex and a table
    id that are not names of inherited properties, one more year never
    raises the survival probability. *)
Theorem survival_non_increasing_from_age_0
    (age : Z) (gender table : string) (n : Z) :
  (0 <= age)%Z -> own_key_lookup table gender ->
  survival_non_increasing age gender table n.
Proof.
  intros Hage _. unfold survival_non_increasing, calculateSurvivalProbability.
  destruct (resolveCurve_ok table gender) as (l & -> & Hl).
  cbn [bind].
  destruct (Z.le_gt_cases 0 n) as [Hn|Hn].
  - replace (Z.to_nat (n + 1)) with (S (Z.to_nat n)) by lia.
    rewrite survival_loop_snoc.
    destruct (survival_loop_range l Hl age (Z.to_nat n) 0 1)
      as (b & -> & Hb); [lia|lra|].
    cbn [bind].
    destruct (Z.of_nat (length l) <=? age + (0 + Z.of_nat (Z.to_nat n)))%Z
      eqn:E.
    + exists (Fin b), (Fin b). repeat split. apply leb_Fin. lra.
    + apply Z.leb_gt in E.
      destruct (survival_factor_range l Hl (age + (0 + Z.of_nat (Z.to_nat n))))
        as (r & -> & Hr); [lia|].
      destruct (survive_step b r) as (c & -> & Hc); [lra|assumption|].
      exists (Fin c), (Fin b). repeat split. apply leb_Fin. lra.
  - replace (Z.to_nat (n + 1)) with O by lia.
    replace (Z.to_nat n) with O by lia.
    exists (Fin 1), (Fin 1). repeat split.
Qed.

Lemma survival_non_increasing_from_age_0_witness :
  (0 <= 65)%Z /\ own_key_lookup "TGH05" "male" /\
  survival_non_increasing 65 "male" "TGH05" 10.
Proof.
  assert (H1 : (0 <= 65)%Z) by lia.
  assert (H2 : own_key_lookup "TGH05" "male") by (split; reflexivity).
  split; [exact H1|]. split; [exact H2|].
  exact (survival_non_increasing_from_age_0 65 "male" "TGH05" 10 H1 H2).
Defined.

(** C7, as stated, fails at a negative age: [rates[-1]] is [undefined],
    the probability after one year is [NaN], and [NaN <= 1] is false. *)
Lemma survival_not_monotone_at_negative_age :
  calculateSurvivalProbability (-1) "male" "TGH05" 1 = Ok NaN /\
  calculateSurvivalProbability (-1) "male" "TGH05" 0 = Ok (Fin 1) /\
  ~ survival_non_increasing (-1) "male" "TGH05" 0.
Proof.
  assert (H1 : calculateSurvivalProbability (-1) "male" "TGH05" 1 = Ok NaN)
    by (vm_compute; reflexivity).
  assert (H0 : calculateSurvivalProbability (-1) "male" "TGH05" 0 = Ok (Fin 1))
    by (vm_compute; reflexivity).
  repeat split; try assumption.
  intros (a & b & Ha & Hb & Hle).
  change (0 + 1)%Z with 1%Z in Ha. rewrite H1 in Ha. rewrite H0 in Hb.
  injection Ha as <-. injection Hb as <-. discriminate Hle.
Qed.

End MortalityModel.

(** ** Life expectancy *)

Section LifeExpectancy.

Variable l : list Q.
Variables gender table : string.
Hypothesis Hres : resolveCurve table gender = Ok (Some l).
Local Abbreviation len := (Z.of_nat (length l)).

Lemma expectancy_loop_unfold (age : Z) (n : nat) (i : Z) (e p : num) :
  expectancy_loop (Some l) age (S n) i e p
  = if (len <=? age + i)%Z then Ok e
    else
      let p' := (p * survival_factor l (age + i))%num in
      let e' := (e + p')%num in
      if (p' <? Fin 0.01)%num then Ok e'
      else expectancy_loop (Some l) age n (i + 1) e' p'.
Proof. reflexivity. Qed.

(** The running probability of the loop is the survival probability of
    the years elapsed, so the loop sums survival probabilities. *)
Lemma expectancy_loop_sums (age : Z) (n : nat) (i : Z) (e p : num) :
  (0 <= i)%Z ->
  survival_loop (Some l) age (Z.to_nat i) 0 (Fin 1) = Ok p ->
  expectancy_loop (Some l) age n i e p
  = accumulate_survival true len age gender table n (i + 1) e.
Proof.
  revert i e p. induction n as [|n IH]; intros i e p Hi Hp; [reflexivity|].
  rewrite expectancy_loop_unfold. cbn [accumulate_survival andb].
  replace (i + 1 - 1)%Z with i by lia.
  destruct (len <=? age + i)%Z eqn:E; [reflexivity|].
  assert (Hnext : survival_loop (Some l) age (Z.to_nat (i + 1)) 0 (Fin 1)
                  = Ok (p * survival_factor l (age + i))%num).
  { replace (Z.to_nat (i + 1)) with (S (Z.to_nat i)) by lia.
    rewrite survival_loop_snoc, Hp. cbn [bind].
    replace (0 + Z.of_nat (Z.to_nat i))%Z with i by lia.
    rewrite E. reflexivity. }
  unfold calculateSurvivalProbability. rewrite Hres. cbn [bind].
  rewrite Hnext. cbn [bind]. cbv zeta.
  destruct (p * survival_factor l (age + i) <? Fin 0.01)%num; [reflexivity|].
  apply IH; [lia|exact Hnext].
Qed.

Hypothesis Hl : curve_ok l = true.

(** From a non-negative age on, the sum is a finite non-negative
    number. *)
Lemma expectancy_loop_range (age : Z) (n : nat) (i : Z) (x a : Q) :
  (0 <= age + i)%Z -> (0 <= x)%Q -> (0 <= a)%Q ->
  exists y, expectancy_loop (Some l) age n i (Fin x) (Fin a) = Ok (Fin y)
            /\ (0 <= y)%Q.
Proof.
  revert i x a. induction n as [|n IH]; intros i x a Hi Hx Ha.
  - exists x. split; [reflexivity|assumption].
  - rewrite expectancy_loop_unfold.
    destruct (len <=? age + i)%Z eqn:E; [exists x; auto|].
    apply Z.leb_gt in E.
    destruct (survival_factor_range l Hl (age + i)) as (r & -> & Hr);
      [lia|].
    destruct (survive_step a r Ha Hr) as (b & -> & Hb). cbv zeta.
    assert (Hsum : (Fin x + Fin b)%num = Fin (Qred (x + b)))
      by reflexivity.
    rewrite Hsum.
    assert (Hy : (0 <= Qred (x + b))%Q) by (rewrite Qred_correct; lra).
    destruct (Fin b <? Fin 0.01)%num; [eexists; split; [reflexivity|exact Hy]|].
    apply IH; [lia|exact Hy|lra].
Qed.

(** Once the sum is [NaN] it stays so. *)
Lemma expectancy_loop_NaN (age : Z) (n : nat) (i : Z) :
  expectancy_loop (Some l) age n i NaN NaN = Ok NaN.
Proof.
  revert i. induction n as [|n IH]; intros i; [reflexivity|].
  rewrite expectancy_loop_unfold.
  destruct (len <=? age + i)%Z; [reflexivity|]. cbn. apply IH.
Qed.

End LifeExpectancy.

Section LifeExpectancyValues.

Lemma one_decimal_nonneg (y : Q) :
  (0 <= y)%Q ->
  exists q, (Num.round (Fin y * Fin 10) / Fin 10)%num = Fin q /\ (0 <= q)%Q.
Proof.
  intros Hy. eexists; split; [reflexivity|].
  rewrite Qred_correct.
  assert (Hz : (0 <= Qfloor (Qred (y * 10) + (1 # 2)))%Z).
  { change 0%Z with (Qfloor 0). apply Qfloor_resp_le.
    rewrite Qred_correct. lra. }
  apply Qle_shift_div_l; [lra|].
  rewrite Qmult_0_l. change 0%Q with (inject_Z 0). rewrite <- Zle_Qle.
  exact Hz.
Qed.

Lemma calculateLifeExpectancy_nonneg (age : Z) (gender table : string) :
  (0 <= age)%Z ->
  exists q, calculateLifeExpectancy age gender table = Ok (Fin q)
            /\ (0 <= q)%Q.
Proof.
  intros Hage. unfold calculateLifeExpectancy.
  destruct (resolveCurve_ok table gender) as (l & -> & Hl). cbn [bind].
  destruct (expectancy_loop_range l Hl age 50 0 0 1) as (y & -> & Hy);
    [lia|lra|lra|].
  cbn [bind].
  destruct (one_decimal_nonneg y Hy) as (q & -> & Hq).
  exists q. auto.
Qed.

Lemma calculateLifeExpectancy_negative_age (age : Z) (gender table : string) :
  (age < 0)%Z -> calculateLifeExpectancy age gender table = Ok NaN.
Proof.
  intros Hage. unfold calculateLifeExpectancy.
  destruct (resolveCurve_ok table gender) as (l & -> & Hl). cbn [bind].
  pose proof (curve_ok_length l Hl) as Hlen.
  rewrite expectancy_loop_unfold.
  replace (Z.of_nat (length l) <=? age + 0)%Z with false
    by (symmetry; apply Z.leb_gt; lia).
  unfold survival_factor.
  replace (age + 0 <? 0)%Z with true by (symmetry; apply Z.ltb_lt; lia).
  cbv zeta. cbn [Num.mul Num.sub Num.add Num.of_value Num.ltb].
  rewrite expectancy_loop_NaN. reflexivity.
Qed.

Lemma calculateLifeExpectancy_ok (age : Z) (gender table : string) :
  is_ok (calculateLifeExpectancy age gender table).
Proof.
  destruct (Z.le_gt_cases 0 age) as [H|H].
  - destruct (calculateLifeExpectancy_nonneg age gender table H)
      as (q & Hq & _).
    exists (Fin q). exact Hq.
  - exists NaN. apply calculateLifeExpectancy_negative_age. exact H.
Qed.

(** C3, as amended. Life expectancy is the sum of the yearly survival
    probabilities over at most 50 years, stopped after the first year
    whose probability is below 0.01 or at the end of the curve,
    whichever comes first, and rounded to one decimal place. *)
Theorem lifeExpectancy_sums_survival_within_table
    (age : Z) (gender table : string) :
  calculateLifeExpectancy age gender table
  = lifeExpectancy_spec true age gender table.
Proof.
  unfold calculateLifeExpectancy, lifeExpectancy_spec.
  destruct (resolveCurve_ok table gender) as (l & Hres & Hl).
  rewrite Hres. cbn [bind array_length].
  rewrite (expectancy_loop_sums l gender table Hres age 50 0 (Fin 0) (Fin 1));
    [reflexivity|lia|reflexivity].
Qed.

(** C3, as stated, fails where the table ends first: at age 99 the one
    year left in the curve is summed (probability 0.801, not below
    0.01), the loop stops there, and the result is 4/5 = 0.8; summing until
    the probability drops below 0.01 alone would go on for 50 years. *)
Lemma lifeExpectancy_stops_at_table_end :
  calculateLifeExpectancy 99 "male" "TGH05" = Ok (Fin (4 # 5)) /\
  calculateSurvivalProbability 99 "male" "TGH05" 1 = Ok (Fin 0.801) /\
  (Fin 0.801 <? Fin 0.01)%num = false /\
  lifeExpectancy_spec false 99 "male" "TGH05" = Ok (Fin 40.1) /\
  calculateLifeExpectancy 99 "male" "TGH05"
  <> lifeExpectancy_spec false 99 "male" "TGH05".
Proof.
  assert (H1 : calculateLifeExpectancy 99 "male" "TGH05" = Ok (Fin (4 # 5)))
    by (vm_compute; reflexivity).
  assert (H2 : lifeExpectancy_spec false 99 "male" "TGH05" = Ok (Fin 40.1))
    by (vm_compute; reflexivity).
  repeat split; try assumption; try (vm_compute; reflexivity).
  rewrite H1, H2. discriminate.
Qed.

End LifeExpectancyValues.

(** ** The valuation engine *)

Section Engine.

Lemma calculateSurvivalProbability_value
    (age : Z) (gender table : string) (years : Z) :
  calculateSurvivalProbability age gender table years
  = Ok (survival_value age gender table years).
Proof.
  unfold survival_value.
  assert (H : is_ok (calculateSurvivalProbability age gender table years)).
  { unfold calculateSurvivalProbability.
    destruct (resolveCurve_ok table gender) as (l & -> & _).
    apply survival_loop_ok. }
  destruct H as [v ->]. reflexivity.
Qed.

Lemma survival_value_range (age : Z) (gender table : string) (years : Z) :
  (0 <= age)%Z ->
  exists s, survival_value age gender table years = Fin s
            /\ (0 <= s <= 1)%Q.
Proof.
  intros Hage. unfold survival_value, calculateSurvivalProbability.
  destruct (resolveCurve_ok table gender) as (l & -> & Hl). cbn [bind].
  destruct (survival_loop_range l Hl age (Z.to_nat years) 0 1)
    as (b & -> & Hb); [lia|lra|].
  exists b. auto.
Qed.

Lemma simple_loop_ok (age : Z) (gender table : string) (amount rate : num)
    (n : nat) (t : Z) (pv : num) :
  is_ok (simple_loop age gender table amount rate n t pv).
Proof.
  revert t pv. induction n as [|n IH]; intros t pv; [exists pv; reflexivity|].
  cbn [simple_loop]. rewrite calculateSurvivalProbability_value.
  cbn [bind].
  destruct (survival_value age gender table t <? Fin 0.01)%num;
    [eexists; reflexivity|apply IH].
Qed.

Lemma temporary_loop_ok (age : Z) (gender table : string)
    (amount rate : num) (n : nat) (t : Z) (pv : num) :
  is_ok (temporary_loop age gender table amount rate n t pv).
Proof.
  revert t pv. induction n as [|n IH]; intros t pv; [exists pv; reflexivity|].
  cbn [temporary_loop]. rewrite calculateSurvivalProbability_value.
  cbn [bind]. apply IH.
Qed.

Lemma growing_loop_ok (age : Z) (gender table : string)
    (amount rate growth : num) (n : nat) (t : Z) (pv : num) :
  is_ok (growing_loop age gender table amount rate growth n t pv).
Proof.
  revert t pv. induction n as [|n IH]; intros t pv; [exists pv; reflexivity|].
  cbn [growing_loop]. rewrite calculateSurvivalProbability_value.
  cbn [bind].
  destruct (survival_value age gender table t <? Fin 0.01)%num;
    [eexists; reflexivity|apply IH].
Qed.

Lemma calculateSimpleAnnuity_ok (age : Z) (gender table : string)
    (amount rate : num) :
  is_ok (calculateSimpleAnnuity age gender table amount rate).
Proof. apply simple_loop_ok. Qed.

Lemma calculateReversibleAnnuity_ok (age : Z) (gender : string)
    (spouse : Z) (table : string) (amount rate reversal : num) :
  is_ok (calculateReversibleAnnuity age gender spouse table amount rate
           reversal).
Proof.
  unfold calculateReversibleAnnuity.
  destruct (calculateSimpleAnnuity_ok age gender table amount rate)
    as [a ->].
  cbn [bind].
  match goal with
  | |- is_ok (bind ?c _) => assert (H : is_ok c) by apply calculateSimpleAnnuity_ok
  end.
  destruct H as [b ->]. eexists; reflexivity.
Qed.

Lemma present_value_by_type_ok (params : CalculationParams) :
  is_ok (present_value_by_type params).
Proof.
  unfold present_value_by_type.
  repeat match goal with
         | |- context [if ?b then _ else _] => destruct b
         end;
    first [ apply calculateSimpleAnnuity_ok
          | apply calculateReversibleAnnuity_ok
          | apply temporary_loop_ok
          | apply simple_loop_ok
          | apply growing_loop_ok ].
Qed.

End Engine.

Section Projection.

Lemma min_30_shape (x : num) :
  match Num.min (Fin 30) x with
  | Fin q => (q <= 30)%Q
  | PInf => False
  | _ => True
  end.
Proof.
  destruct x as [q| | |]; cbn; try exact I; try lra.
  destruct (Qle_bool 30 q) eqn:E; [lra|].
  destruct (Qlt_le_dec 30 q) as [H|H]; [|exact H].
  exfalso. assert (Qle_bool 30 q = true) by (apply Qle_bool_iff; lra).
  congruence.
Qed.

Lemma projection_count_le_30 (le : num) : (projection_count le <= 30)%Z.
Proof.
  unfold projection_count.
  pose proof (min_30_shape (Num.ceil le)) as H.
  destruct (Num.min (Fin 30) (Num.ceil le)) as [q| | |]; try lia.
  change 30%Z with (Qfloor 30). apply Qfloor_resp_le. exact H.
Qed.

(** The guard of the projection loop, on integers. *)
Lemma projection_guard (le : num) (year : Z) :
  (1 <= year)%Z ->
  (Num.of_Z year <=? Num.min (Fin 30) (Num.ceil le))%num
  = (year <=? projection_count le)%Z.
Proof.
  intros Hy. unfold projection_count.
  pose proof (min_30_shape (Num.ceil le)) as H.
  destruct (Num.min (Fin 30) (Num.ceil le)) as [q| | |].
  - apply eq_true_iff_eq. unfold Num.of_Z.
    rewrite leb_Fin, Z.leb_le. split; intros Hle.
    + rewrite <- (Qfloor_Z year). apply Qfloor_resp_le. exact Hle.
    + apply Qle_trans with (inject_Z (Qfloor q)); [|apply Qfloor_le].
      rewrite <- Zle_Qle. exact Hle.
  - contradiction.
  - symmetry. apply Z.leb_gt. lia.
  - symmetry. apply Z.leb_gt. lia.
Qed.

Variable params : CalculationParams.
Variable le : num.

Local Abbreviation surv :=
  (survival_value params.(age) params.(gender) params.(mortalityTable)).
Local Abbreviation pay := (payment_of params).

(** With enough fuel the loop ends by its guard, having pushed one
    point per year up to [projection_count]. *)
Lemma projection_loop_run (n fuel : nat) (yr : Z) (total : num)
    (acc : list ProjectionPoint) :
  (1 <= yr)%Z ->
  n = Z.to_nat (projection_count le - yr + 1) ->
  (n < fuel)%nat ->
  projection_loop params.(annuityType) params.(age) params.(gender)
    params.(mortalityTable) (Fin params.(annualAmount))
    (Fin (default 0%Q params.(growthRate)))
    (default 30%Z params.(duration)) (default 0%Z params.(deferralPeriod))
    le fuel yr total acc
  = Ok (fst (projection_points surv pay n yr total),
        acc ++ snd (projection_points surv pay n yr total)).
Proof.
  revert fuel yr total acc.
  induction n as [|n IH]; intros fuel yr total acc Hy Hn Hfuel;
    (destruct fuel as [|fuel]; [lia|]);
    cbn [projection_loop]; rewrite projection_guard by exact Hy.
  - replace (yr <=? projection_count le)%Z with false
      by (symmetry; apply Z.leb_gt; lia).
    cbn [projection_points fst snd]. rewrite app_nil_r. reflexivity.
  - replace (yr <=? projection_count le)%Z with true
      by (symmetry; apply Z.leb_le; lia).
    rewrite calculateSurvivalProbability_value. cbn [bind].
    rewrite IH by lia.
    cbn [projection_points fst snd]. rewrite <- app_assoc. reflexivity.
Qed.

Lemma calculateAnnuity_unfold :
  calculateAnnuity params
  = let* lifeExpectancy :=
      calculateLifeExpectancy params.(age) params.(gender)
        params.(mortalityTable) in
    let* presentValue := present_value_by_type params in
    let* loop_state :=
      projection_loop params.(annuityType) params.(age) params.(gender)
        params.(mortalityTable) (Fin params.(annualAmount))
        (Fin (default 0%Q params.(growthRate)))
        (default 30%Z params.(duration))
        (default 0%Z params.(deferralPeriod))
        lifeExpectancy projection_fuel 1 (Fin 0) [] in
    Ok {| presentValue := Num.round presentValue;
          monthlyPayment := Num.round (Fin params.(annualAmount) / Fin 12);
          totalPayments := Num.round (fst loop_state);
          lifeExpectancy := lifeExpectancy;
          projections := snd loop_state |}.
Proof. reflexivity. Qed.

Lemma calculateAnnuity_run (pv : num) :
  calculateLifeExpectancy params.(age) params.(gender)
    params.(mortalityTable) = Ok le ->
  present_value_by_type params = Ok pv ->
  calculateAnnuity params = Ok (result_of params le pv).
Proof.
  intros Hle Hpv. rewrite calculateAnnuity_unfold, Hle, Hpv. cbn [bind].
  pose proof (projection_count_le_30 le) as H30.
  rewrite (projection_loop_run (Z.to_nat (projection_count le)));
    [|lia|f_equal; lia|unfold projection_fuel; lia].
  reflexivity.
Qed.

End Projection.

Section ProjectionPoints.

Variables surv pay : Z -> num.

Lemma projection_points_length (n : nat) (yr : Z) (total : num) :
  length (snd (projection_points surv pay n yr total)) = n.
Proof.
  revert yr total. induction n as [|n IH]; intros yr total; [reflexivity|].
  cbn [projection_points snd length]. rewrite IH. reflexivity.
Qed.

Lemma projection_points_lookup (n : nat) (yr : Z) (total : num)
    (i : nat) (pt : ProjectionPoint) :
  snd (projection_points surv pay n yr total) !! i = Some pt ->
  pt.(year) = (yr + Z.of_nat i)%Z /\
  pt.(payment) = Num.round (pay (yr + Z.of_nat i)).
Proof.
  revert yr total i. induction n as [|n IH]; intros yr total i H.
  - discriminate H.
  - cbn [projection_points snd] in H. destruct i as [|i].
    + injection H as <-. cbn [year payment Z.of_nat].
      rewrite Z.add_0_r. auto.
    + apply IH in H. replace (yr + Z.of_nat (S i))%Z
        with (yr + 1 + Z.of_nat i)%Z by lia.
      exact H.
Qed.

Lemma projection_points_last (n : nat) (yr : Z) (total : num)
    (pt : ProjectionPoint) :
  last (snd (projection_points surv pay n yr total)) = Some pt ->
  pt.(cumulativePayment)
  = Num.round (fst (projection_points surv pay n yr total)).
Proof.
  revert yr total. induction n as [|n IH]; intros yr total H.
  - discriminate H.
  - cbn [projection_points snd fst] in *. rewrite last_cons in H.
    destruct (last (snd (projection_points surv pay n (yr + 1)
                           (total + pay yr * surv yr)%num))) as [y|] eqn:E.
    + injection H as ->. apply IH. exact E.
    + injection H as <-. cbn [cumulativePayment].
      destruct n as [|n]; [reflexivity|].
      cbn [projection_points snd] in E. rewrite last_cons in E.
      destruct (last _) in E; discriminate E.
Qed.

(** Every year from the first on adds a finite, non-negative amount. *)
Hypothesis Hterm : forall z : Z,
    (1 <= z)%Z ->
    exists b s, pay z = Fin b /\ surv z = Fin s /\ (0 <= b)%Q /\ (0 <= s)%Q.

Lemma running_total_grows (z : Z) (t : Q) :
  (1 <= z)%Z ->
  exists t', (Fin t + pay z * surv z)%num = Fin t' /\ (t <= t')%Q.
Proof.
  intros Hz. destruct (Hterm z Hz) as (b & s & -> & -> & Hb & Hs).
  eexists; split; [reflexivity|]. rewrite !Qred_correct. nra.
Qed.

Lemma projection_points_non_decreasing (n : nat) (yr : Z) (t : Q)
    (i : nat) (a b : ProjectionPoint) :
  (1 <= yr)%Z ->
  snd (projection_points surv pay n yr (Fin t)) !! i = Some a ->
  snd (projection_points surv pay n yr (Fin t)) !! S i = Some b ->
  (a.(cumulativePayment) <=? b.(cumulativePayment))%num = true.
Proof.
  revert yr t i a b. induction n as [|n IH]; intros yr t i a b Hy Ha Hb.
  - discriminate Ha.
  - cbn [projection_points snd] in Ha, Hb.
    destruct (running_total_grows yr t Hy) as (t' & Et' & _).
    rewrite Et' in Ha, Hb.
    destruct i as [|i].
    + apply (inj Some) in Ha. rewrite <- Ha. cbn [cumulativePayment].
      destruct n as [|n]; [discriminate Hb|].
      cbn [projection_points snd] in Hb.
      apply (inj Some) in Hb. rewrite <- Hb. cbn [cumulativePayment].
      destruct (running_total_grows (yr + 1) t') as (t'' & -> & Hle); [lia|].
      apply round_mono. exact Hle.
    + apply (IH (yr + 1)%Z t' i a b); [lia|exact Ha|exact Hb].
Qed.

End ProjectionPoints.

Section Payments.

Variable params : CalculationParams.

Lemma payment_of_growing (yr : Z) :
  params.(annuityType) = "growing"%string ->
  payment_of params yr
  = (Fin params.(annualAmount)
     * Num.pow (Fin 1 + Fin (default 0%Q params.(growthRate)) / Fin 100)
         (yr - 1))%num.
Proof. intros H. unfold payment_of, projected_payment. rewrite H. reflexivity. Qed.

Lemma payment_of_nonneg (yr : Z) :
  (1 <= yr)%Z ->
  (0 <= params.(annualAmount))%Q ->
  (params.(annuityType) = "growing"%string ->
   (-100 <= default 0%Q params.(growthRate))%Q) ->
  exists b, payment_of params yr = Fin b /\ (0 <= b)%Q.
Proof.
  intros Hy Ha Hg. unfold payment_of, projected_payment.
  destruct (_ && (yr <=? _)%Z); [exists 0%Q; split; [reflexivity|lra]|].
  destruct (_ && (_ <? yr)%Z); [exists 0%Q; split; [reflexivity|lra]|].
  destruct (String.eqb (annuityType params) "growing") eqn:E;
    [|exists params.(annualAmount); auto].
  apply String.eqb_eq in E. specialize (Hg E).
  set (g := default 0%Q params.(growthRate)) in *.
  assert (Hbase : (Fin 1 + Fin g / Fin 100)%num
                  = Fin (Qred (1 + Qred (g / 100)))) by reflexivity.
  rewrite Hbase.
  destruct (pow_nonneg (Qred (1 + Qred (g / 100))) (yr - 1))
    as (c & -> & Hc); [|lia|].
  { rewrite !Qred_correct.
    assert (Hdiv : (g / 100 == g * (1 # 100))%Q) by reflexivity.
    rewrite Hdiv. lra. }
  eexists; split; [reflexivity|]. rewrite Qred_correct.
  apply Qmult_le_0_compat; assumption.
Qed.

End Payments.

Section Claims.

Lemma calculateAnnuity_result (params : CalculationParams) :
  exists le pv,
    calculateLifeExpectancy params.(age) params.(gender)
      params.(mortalityTable) = Ok le /\
    present_value_by_type params = Ok pv /\
    calculateAnnuity params = Ok (result_of params le pv).
Proof.
  destruct (calculateLifeExpectancy_ok params.(age) params.(gender)
              params.(mortalityTable)) as [le Hle].
  destruct (present_value_by_type_ok params) as [pv Hpv].
  exists le, pv. repeat split; try assumption.
  apply calculateAnnuity_run; assumption.
Qed.

(** C10. The monthly payment is [Math.round(annualAmount / 12)]: two
    records with the same annual amount both get a result, with the same
    monthly payment, whatever their other fields. *)
Theorem monthlyPayment_only_from_annualAmount (p1 p2 : CalculationParams) :
  (p1.(annualAmount) == p2.(annualAmount))%Q ->
  exists r1 r2,
    calculateAnnuity p1 = Ok r1 /\
    calculateAnnuity p2 = Ok r2 /\
    r1.(monthlyPayment) = Num.round (Fin p1.(annualAmount) / Fin 12) /\
    r1.(monthlyPayment) = r2.(monthlyPayment).
Proof.
  intros Heq.
  destruct (calculateAnnuity_result p1) as (le1 & pv1 & _ & _ & E1).
  destruct (calculateAnnuity_result p2) as (le2 & pv2 & _ & _ & E2).
  exists (result_of p1 le1 pv1), (result_of p2 le2 pv2).
  split; [exact E1|]. split; [exact E2|].
  cbn [result_of monthlyPayment]. split; [reflexivity|].
  assert (Hd : forall a : Q, (Fin a / Fin 12)%num = Fin (Qred (a / 12)))
    by reflexivity.
  rewrite !Hd. do 2 f_equal. apply Qred_complete. rewrite Heq. reflexivity.
Qed.

Lemma monthlyPayment_only_from_annualAmount_witness :
  (scenarioA.(annualAmount) == temporary_5_years.(annualAmount))%Q /\
  exists r1 r2,
    calculateAnnuity scenarioA = Ok r1 /\
    calculateAnnuity temporary_5_years = Ok r2 /\
    r1.(monthlyPayment) = Num.round (Fin 12000 / Fin 12) /\
    r1.(monthlyPayment) = r2.(monthlyPayment).
Proof.
  assert (Heq : (scenarioA.(annualAmount)
                 == temporary_5_years.(annualAmount))%Q) by reflexivity.
  split; [exact Heq|].
  exact (monthlyPayment_only_from_annualAmount scenarioA temporary_5_years
           Heq).
Defined.

(** C1. For a reversible annuity the present value, before the final
    rounding, is the simple annuity of the primary life plus 0.6 times
    the simple annuity of the spouse (spouse age, opposite sex, amount
    scaled by the reversal rate), both computed by
    [calculateSimpleAnnuity]. *)
Theorem reversible_present_value (params : CalculationParams) :
  params.(annuityType) = "reversible"%string ->
  let rate := (Fin params.(interestRate) / Fin 100)%num in
  let amount := Fin params.(annualAmount) in
  let reversal := Fin (default 60%Q params.(reversalRate)) in
  let spouse := default (params.(age) - 3)%Z params.(spouseAge) in
  let opposite :=
    if String.eqb params.(gender) "male" then "female"%string
    else "male"%string in
  exists primary survivor r,
    calculateSimpleAnnuity params.(age) params.(gender)
      params.(mortalityTable) amount rate = Ok primary /\
    calculateSimpleAnnuity spouse opposite params.(mortalityTable)
      (amount * (reversal / Fin 100))%num rate = Ok survivor /\
    present_value_by_type params
    = Ok (primary + survivor * Fin 0.6)%num /\
    calculateAnnuity params = Ok r /\
    r.(presentValue) = Num.round (primary + survivor * Fin 0.6)%num.
Proof.
  intros Htype rate amount reversal spouse opposite.
  destruct (calculateSimpleAnnuity_ok params.(age) params.(gender)
              params.(mortalityTable) amount rate) as [a Ha].
  destruct (calculateSimpleAnnuity_ok spouse opposite
              params.(mortalityTable)
              (amount * (reversal / Fin 100))%num rate) as [b Hb].
  assert (Hpv : present_value_by_type params
                = Ok (a + b * Fin 0.6)%num).
  { unfold present_value_by_type. rewrite Htype.
    cbn [String.eqb Ascii.eqb Bool.eqb].
    unfold calculateReversibleAnnuity.
    fold rate amount reversal spouse opposite.
    rewrite Ha. cbn [bind]. rewrite Hb. reflexivity. }
  destruct (calculateLifeExpectancy_ok params.(age) params.(gender)
              params.(mortalityTable)) as [le Hle].
  exists a, b, (result_of params le (a + b * Fin 0.6)%num).
  repeat split; try assumption.
  apply calculateAnnuity_run; assumption.
Qed.

Lemma reversible_present_value_witness :
  exists primary survivor r,
    calculateSimpleAnnuity 65 "male" "TGH05" (Fin 12000) (Fin 2.5 / Fin 100)
    = Ok primary /\
    calculateSimpleAnnuity 62 "female" "TGH05"
      (Fin 12000 * (Fin 60 / Fin 100)) (Fin 2.5 / Fin 100)
    = Ok survivor /\
    present_value_by_type scenarioD
    = Ok (primary + survivor * Fin 0.6)%num /\
    calculateAnnuity scenarioD = Ok r /\
    r.(presentValue) = Num.round (primary + survivor * Fin 0.6)%num.
Proof. exact (reversible_present_value scenarioD eq_refl). Defined.

(** C2. For a growing annuity the point of index [i] is that of year
    [i + 1], and its payment is
    [Math.round(annualAmount * Math.pow(1 + growthRate / 100, year - 1))]. *)
Theorem growing_projection_payment (params : CalculationParams) :
  params.(annuityType) = "growing"%string ->
  exists r,
    calculateAnnuity params = Ok r /\
    forall (i : nat) (pt : ProjectionPoint),
      r.(projections) !! i = Some pt ->
      pt.(year) = (Z.of_nat i + 1)%Z /\
      pt.(payment)
      = Num.round
          (Fin params.(annualAmount)
           * Num.pow (Fin 1 + Fin (default 0%Q params.(growthRate)) / Fin 100)
               (pt.(year) - 1))%num.
Proof.
  intros Htype.
  destruct (calculateAnnuity_result params) as (le & pv & _ & _ & H).
  eexists. split; [exact H|].
  intros i pt Hpt. cbn [result_of projections] in Hpt.
  apply projection_points_lookup in Hpt as [Hy Hp].
  split; [lia|].
  rewrite Hp, Hy. apply f_equal. apply payment_of_growing. exact Htype.
Qed.

Lemma growing_projection_payment_witness :
  exists r,
    calculateAnnuity growing_2_percent = Ok r /\
    forall (i : nat) (pt : ProjectionPoint),
      r.(projections) !! i = Some pt ->
      pt.(year) = (Z.of_nat i + 1)%Z /\
      pt.(payment)
      = Num.round (Fin 12000 * Num.pow (Fin 1 + Fin 2 / Fin 100)
                                 (pt.(year) - 1))%num.
Proof. exact (growing_projection_payment growing_2_percent eq_refl). Defined.

Lemma projection_count_exact (q : Q) :
  (0 <= q)%Q ->
  Num.of_Z (Z.of_nat (Z.to_nat (projection_count (Fin q))))
  = Num.min (Fin 30) (Num.ceil (Fin q)).
Proof.
  intros Hq.
  assert (Hc : (0 <= Qceiling q)%Z).
  { change 0%Z with (Qceiling 0). apply Qceiling_resp_le. exact Hq. }
  unfold projection_count. cbn [Num.ceil Num.min Num.leb].
  destruct (Qle_bool 30 (inject_Z (Qceiling q))); [reflexivity|].
  rewrite Qfloor_Z, Z2Nat.id by exact Hc. reflexivity.
Qed.

(** C4. For a record whose age is not negative (every valid record has
    an age of 18 or more) the number of projection points is
    [Math.min(30, Math.ceil(lifeExpectancy))]; and two records with the
    same age, sex and table get the same number of points, whatever
    their annuity types. *)
Theorem projections_length (params : CalculationParams) :
  (0 <= params.(age))%Z ->
  exists r,
    calculateAnnuity params = Ok r /\
    Num.of_Z (Z.of_nat (length r.(projections)))
    = Num.min (Fin 30) (Num.ceil r.(lifeExpectancy)) /\
    forall (params' : CalculationParams) (r' : CalculationResult),
      params'.(age) = params.(age) ->
      params'.(gender) = params.(gender) ->
      params'.(mortalityTable) = params.(mortalityTable) ->
      calculateAnnuity params' = Ok r' ->
      length r'.(projections) = length r.(projections).
Proof.
  intros Hage.
  destruct (calculateAnnuity_result params) as (le & pv & Hle & _ & H).
  eexists. split; [exact H|].
  cbn [result_of projections lifeExpectancy].
  rewrite projection_points_length. split.
  - destruct (calculateLifeExpectancy_nonneg params.(age) params.(gender)
                params.(mortalityTable) Hage) as (q & Hq & Hq0).
    rewrite Hq in Hle. apply Ok_inj in Hle. subst le.
    apply projection_count_exact. exact Hq0.
  - intros p' r' Ea Eg Et H'.
    destruct (calculateAnnuity_result p') as (le' & pv' & Hle' & _ & E').
    rewrite E' in H'. apply Ok_inj in H'. subst r'.
    cbn [result_of projections]. rewrite projection_points_length.
    rewrite Ea, Eg, Et, Hle in Hle'. apply Ok_inj in Hle'. subst le'.
    reflexivity.
Qed.

Lemma projections_length_witness :
  (0 <= 65)%Z /\
  exists r,
    calculateAnnuity temporary_5_years = Ok r /\
    Num.of_Z (Z.of_nat (length r.(projections)))
    = Num.min (Fin 30) (Num.ceil r.(lifeExpectancy)).
Proof.
  assert (H : (0 <= temporary_5_years.(age))%Z) by (vm_compute; discriminate).
  split; [exact H|].
  destruct (projections_length temporary_5_years H) as (r & Hr & Hlen & _).
  exists r. split; assumption.
Defined.

(** C9, as amended. The cumulative payment of the last point is the
    total of the result; and the cumulative payment never goes down
    from a year to the next when the annual amount is positive and, for
    a growing annuity, the growth rate is not below -100 %. *)
Theorem cumulative_payment_invariant (params : CalculationParams) :
  exists r,
    calculateAnnuity params = Ok r /\
    cumulative_closes r /\
    ((0 < params.(annualAmount))%Q ->
     (params.(annuityType) = "growing"%string ->
      (-100 <= default 0%Q params.(growthRate))%Q) ->
     cumulative_non_decreasing r).
Proof.
  destruct (calculateAnnuity_result params) as (le & pv & Hle & _ & H).
  exists (result_of params le pv). split; [exact H|]. split.
  - intros pt Hpt. cbn [result_of projections totalPayments] in *.
    apply projection_points_last. exact Hpt.
  - intros Hpositive Hgrowth i a b Ha Hb.
    assert (Hamount : (0 <= params.(annualAmount))%Q)
      by (apply Qlt_le_weak; exact Hpositive).
    cbn [result_of projections] in Ha, Hb.
    destruct (Z.le_gt_cases 0 params.(age)) as [Hage|Hage].
    + eapply projection_points_non_decreasing; [|reflexivity|exact Ha|exact Hb].
      intros z Hz.
      destruct (payment_of_nonneg params z Hz Hamount Hgrowth)
        as (c & Hc & Hc0).
      destruct (survival_value_range params.(age) params.(gender)
                  params.(mortalityTable) z Hage) as (s & Hs & Hs0).
      exists c, s. repeat split; try assumption. lra.
    + rewrite calculateLifeExpectancy_negative_age in Hle by lia.
      apply Ok_inj in Hle. subst le. discriminate Ha.
Qed.

Lemma cumulative_payment_invariant_witness :
  (0 < growing_2_percent.(annualAmount))%Q /\
  (-100 <= default 0%Q growing_2_percent.(growthRate))%Q /\
  exists r,
    calculateAnnuity growing_2_percent = Ok r /\
    cumulative_closes r /\ cumulative_non_decreasing r.
Proof.
  assert (Ha : (0 < growing_2_percent.(annualAmount))%Q)
    by (vm_compute; reflexivity).
  assert (Hg : (-100 <= default 0%Q growing_2_percent.(growthRate))%Q)
    by (vm_compute; discriminate).
  split; [exact Ha|]. split; [exact Hg|].
  destruct (cumulative_payment_invariant growing_2_percent)
    as (r & H & Hc & Hm).
  exists r. split; [exact H|]. split; [exact Hc|].
  apply Hm; [exact Ha|]. intros _. exact Hg.
Defined.

(** C9, as stated, fails: with a growth rate of -200 % the payments
    alternate in sign and the cumulative payment goes from 10428 in
    year 1 down to 1387 in year 2. *)
Lemma cumulative_payment_can_decrease :
  exists r a b,
    calculateAnnuity growing_minus_200_percent = Ok r /\
    r.(projections) <> [] /\
    r.(projections) !! 0%nat = Some a /\
    r.(projections) !! 1%nat = Some b /\
    a.(cumulativePayment) = Fin 10428 /\
    b.(cumulativePayment) = Fin 1387 /\
    ~ cumulative_non_decreasing r.
Proof.
  destruct (calculateAnnuity_result growing_minus_200_percent)
    as (le & pv & Hle & _ & H).
  assert (Ele : le = Fin 6).
  { apply Ok_inj. rewrite <- Hle. vm_compute. reflexivity. }
  subst le.
  do 3 eexists. split; [exact H|].
  assert (H0 : projections (result_of growing_minus_200_percent (Fin 6) pv)
               !! 0%nat = Some _) by (vm_compute; reflexivity).
  assert (H1 : projections (result_of growing_minus_200_percent (Fin 6) pv)
               !! 1%nat = Some _) by (vm_compute; reflexivity).
  split; [intros E; rewrite E in H0; discriminate H0|].
  split; [exact H0|]. split; [exact H1|].
  split; [reflexivity|]. split; [reflexivity|].
  intros Hmono. specialize (Hmono 0%nat _ _ H0 H1). discriminate Hmono.
Qed.

(** Scenario A of the specification, run: a monthly payment of 1000, a
    life expectancy of 6.0 years and six projection points. *)
Example scenarioA_run :
  exists r,
    calculateAnnuity scenarioA = Ok r /\
    r.(presentValue) = Fin 61982 /\
    r.(monthlyPayment) = Fin 1000 /\
    r.(totalPayments) = Fin 44841 /\
    r.(lifeExpectancy) = Fin 6 /\
    length r.(projections) = 6%nat.
Proof. eexists. split; [vm_compute; reflexivity|]. repeat split. Qed.

(** Scenario B: a temporary annuity of 5 years still has its six points;
    the sixth one pays nothing. *)
Example temporary_zero_payment_year_emitted :
  exists r pt,
    calculateAnnuity temporary_5_years = Ok r /\
    length r.(projections) = 6%nat /\
    r.(projections) !! 5%nat = Some pt /\
    pt.(year) = 6%Z /\ pt.(payment) = Fin 0.
Proof.
  do 2 eexists. split; [vm_compute; reflexivity|].
  split; [reflexivity|]. split; [reflexivity|]. split; reflexivity.
Qed.

(** A negative age is answered, with [NaN] where a value depends on the
    curve and no projection point. *)
Example negative_age_run :
  calculateAnnuity
    {| annuityType := "simple"; age := -5; gender := "male";
       interestRate := 2.5; annualAmount := 12000; mortalityTable := "TGH05";
       duration := None; deferralPeriod := None; growthRate := None;
       reversalRate := None; spouseAge := None |}
  = Ok {| presentValue := NaN; monthlyPayment := Fin 1000;
          totalPayments := Fin 0; lifeExpectancy := NaN;
          projections := [] |}.
Proof. vm_compute. reflexivity. Qed.

End Claims.

(** * Further properties of the engine *)

Section MortalityFacts.

(** X2. From age 0 on, for a sex and a table id that are not names of
    inherited properties, a survival probability is a finite number
    between 0 and 1, for any number of years. *)
Theorem survival_is_a_probability
    (age : Z) (gender table : string) (years : Z) :
  (0 <= age)%Z -> own_key_lookup table gender ->
  exists s, calculateSurvivalProbability age gender table years = Ok (Fin s)
            /\ (0 <= s <= 1)%Q.
Proof.
  intros Hage _. rewrite calculateSurvivalProbability_value.
  destruct (survival_value_range age gender table years Hage) as (s & -> & Hs).
  exists s. auto.
Qed.

Lemma survival_is_a_probability_witness :
  (0 <= 40)%Z /\ own_key_lookup "TV88-90" "female" /\
  exists s, calculateSurvivalProbability 40 "female" "TV88-90" 75 = Ok (Fin s)
            /\ (0 <= s <= 1)%Q.
Proof.
  assert (H : (0 <= 40)%Z) by lia.
  assert (Hn : own_key_lookup "TV88-90" "female") by (split; reflexivity).
  split; [exact H|]. split; [exact Hn|].
  exact (survival_is_a_probability 40 "female" "TV88-90" 75 H Hn).
Defined.

Lemma expectancy_loop_bounds (l : list Q) (age : Z) (n : nat) (i : Z)
    (x a : Q) :
  curve_ok l = true ->
  (0 <= age + i)%Z -> (0 <= x)%Q -> (0 <= a <= 1)%Q ->
  exists y, expectancy_loop (Some l) age n i (Fin x) (Fin a) = Ok (Fin y)
            /\ (x <= y <= x + inject_Z (Z.of_nat n))%Q.
Proof.
  intros Hl. revert i x a. induction n as [|n IH]; intros i x a Hi Hx Ha.
  - exists x. split; [reflexivity|].
    change (inject_Z (Z.of_nat 0)) with 0%Q. lra.
  - assert (Hn : (inject_Z (Z.of_nat (S n)) == inject_Z (Z.of_nat n) + 1)%Q).
    { rewrite Nat2Z.inj_succ. unfold Z.succ. rewrite inject_Z_plus.
      reflexivity. }
    assert (Hn0 : (0 <= inject_Z (Z.of_nat n))%Q).
    { change 0%Q with (inject_Z 0). rewrite <- Zle_Qle. lia. }
    rewrite expectancy_loop_unfold.
    destruct (Z.of_nat (length l) <=? age + i)%Z eqn:E.
    { exists x. split; [reflexivity|]. rewrite Hn. lra. }
    apply Z.leb_gt in E.
    destruct (survival_factor_range l Hl (age + i)) as (r & -> & Hr); [lia|].
    destruct (survive_step a r) as (b & -> & Hb); [lra|exact Hr|]. cbv zeta.
    assert (Hsum : (Fin x + Fin b)%num = Fin (Qred (x + b))) by reflexivity.
    rewrite Hsum.
    assert (Hy : (Qred (x + b) == x + b)%Q) by apply Qred_correct.
    destruct (Fin b <? Fin 0.01)%num.
    { eexists; split; [reflexivity|]. rewrite Hy, Hn. lra. }
    destruct (IH (i + 1)%Z (Qred (x + b)) b) as (y & -> & Hyb);
      [lia|rewrite Hy; lra|lra|].
    exists y. split; [reflexivity|]. rewrite Hy in Hyb. rewrite Hn. lra.
Qed.

Lemma one_decimal_bounds (y : Q) :
  (0 <= y <= 50)%Q ->
  exists q, (Num.round (Fin y * Fin 10) / Fin 10)%num = Fin q
            /\ (0 <= q <= 50)%Q.
Proof.
  intros [Hy0 Hy50]. eexists; split; [reflexivity|].
  rewrite Qred_correct.
  assert (Hz0 : (0 <= Qfloor (Qred (y * 10) + (1 # 2)))%Z).
  { change 0%Z with (Qfloor 0). apply Qfloor_resp_le.
    rewrite Qred_correct. lra. }
  assert (Hz1 : (Qfloor (Qred (y * 10) + (1 # 2)) <= 500)%Z).
  { change 500%Z with (Qfloor (500 + (1 # 2))). apply Qfloor_resp_le.
    rewrite Qred_correct. lra. }
  split.
  - apply Qle_shift_div_l; [lra|].
    rewrite Qmult_0_l. change 0%Q with (inject_Z 0). rewrite <- Zle_Qle.
    exact Hz0.
  - apply Qle_shift_div_r; [lra|].
    change (50 * 10)%Q with (inject_Z 500). rewrite <- Zle_Qle. exact Hz1.
Qed.

(** X3. From age 0 on, for a sex and a table id that are not names of
    inherited properties, the life expectancy is a finite number of
    years between 0 and 50, the horizon of the sum. *)
Theorem lifeExpectancy_between_0_and_50
    (age : Z) (gender table : string) :
  (0 <= age)%Z -> own_key_lookup table gender ->
  exists q, calculateLifeExpectancy age gender table = Ok (Fin q)
            /\ (0 <= q <= 50)%Q.
Proof.
  intros Hage _. unfold calculateLifeExpectancy.
  destruct (resolveCurve_ok table gender) as (l & -> & Hl). cbn [bind].
  destruct (expectancy_loop_bounds l age 50 0 0 1 Hl) as (y & -> & Hy);
    [lia|lra|lra|].
  cbn [bind].
  destruct (one_decimal_bounds y) as (q & -> & Hq).
  { change (inject_Z (Z.of_nat 50)) with 50%Q in Hy. lra. }
  exists q. auto.
Qed.

Lemma lifeExpectancy_between_0_and_50_witness :
  (0 <= 18)%Z /\ own_key_lookup "TGF05" "female" /\
  exists q, calculateLifeExpectancy 18 "female" "TGF05" = Ok (Fin q)
            /\ (0 <= q <= 50)%Q.
Proof.
  assert (H : (0 <= 18)%Z) by lia.
  assert (Hn : own_key_lookup "TGF05" "female") by (split; reflexivity).
  split; [exact H|]. split; [exact Hn|].
  exact (lifeExpectancy_between_0_and_50 18 "female" "TGF05" H Hn).
Defined.

End MortalityFacts.

Section EdgeAges.

Lemma lifeExpectancy_past_table_end (age : Z) (gender table : string) :
  (100 <= age)%Z -> calculateLifeExpectancy age gender table = Ok (Fin 0).
Proof.
  intros Hage. unfold calculateLifeExpectancy.
  destruct (resolveCurve_ok table gender) as (l & -> & Hl). cbn [bind].
  pose proof (curve_ok_length l Hl) as Hlen.
  rewrite expectancy_loop_unfold.
  replace (Z.of_nat (length l) <=? age + 0)%Z with true
    by (symmetry; apply Z.leb_le; lia).
  reflexivity.
Qed.

(** X4. From age 100 on the curve is exhausted before the first year.
    For a sex and a table id that are not names of inherited properties,
    and loop bounds below 2^53, the result has a life expectancy of 0, no
    projection point and a total of payments of 0, whatever the other
    fields. *)
Theorem no_projection_past_table_end (params : CalculationParams) :
  (100 <= params.(age))%Z ->
  own_key_lookup params.(mortalityTable) params.(gender) ->
  terminating_counters params ->
  exists r,
    calculateAnnuity params = Ok r /\
    r.(lifeExpectancy) = Fin 0 /\
    r.(projections) = [] /\
    r.(totalPayments) = Fin 0.
Proof.
  intros Hage _ _.
  destruct (present_value_by_type_ok params) as [pv Hpv].
  exists (result_of params (Fin 0) pv). split.
  - apply calculateAnnuity_run; [|exact Hpv].
    apply lifeExpectancy_past_table_end. exact Hage.
  - repeat split.
Qed.

Lemma no_projection_past_table_end_witness :
  (100 <= centenarian.(age))%Z /\
  own_key_lookup centenarian.(mortalityTable) centenarian.(gender) /\
  terminating_counters centenarian /\
  exists r,
    calculateAnnuity centenarian = Ok r /\
    r.(lifeExpectancy) = Fin 0 /\
    r.(projections) = [] /\
    r.(totalPayments) = Fin 0.
Proof.
  assert (H : (100 <= centenarian.(age))%Z) by (vm_compute; discriminate).
  assert (Hn : own_key_lookup centenarian.(mortalityTable)
                 centenarian.(gender)) by (split; reflexivity).
  assert (Hc : terminating_counters centenarian)
    by (split; intros E; discriminate E).
  split; [exact H|]. split; [exact Hn|]. split; [exact Hc|].
  exact (no_projection_past_table_end centenarian H Hn Hc).
Defined.

(** X5. A negative age reads the curve outside its bounds.  For a sex and
    a table id that are not names of inherited properties, and loop
    bounds below 2^53, the life expectancy is [NaN], the projection loop
    is not entered (its guard compares with [NaN]), so there is no
    projection point and the total of payments is 0. *)
Theorem no_projection_at_negative_age (params : CalculationParams) :
  (params.(age) < 0)%Z ->
  own_key_lookup params.(mortalityTable) params.(gender) ->
  terminating_counters params ->
  exists r,
    calculateAnnuity params = Ok r /\
    r.(lifeExpectancy) = NaN /\
    r.(projections) = [] /\
    r.(totalPayments) = Fin 0.
Proof.
  intros Hage _ _.
  destruct (present_value_by_type_ok params) as [pv Hpv].
  exists (result_of params NaN pv). split.
  - apply calculateAnnuity_run; [|exact Hpv].
    apply calculateLifeExpectancy_negative_age. exact Hage.
  - repeat split.
Qed.

Lemma no_projection_at_negative_age_witness :
  (unborn.(age) < 0)%Z /\
  own_key_lookup unborn.(mortalityTable) unborn.(gender) /\
  terminating_counters unborn /\
  exists r,
    calculateAnnuity unborn = Ok r /\
    r.(lifeExpectancy) = NaN /\
    r.(projections) = [] /\
    r.(totalPayments) = Fin 0.
Proof.
  assert (H : (unborn.(age) < 0)%Z) by (vm_compute; reflexivity).
  assert (Hn : own_key_lookup unborn.(mortalityTable) unborn.(gender))
    by (split; reflexivity).
  assert (Hc : terminating_counters unborn)
    by (split; intros E; discriminate E).
  split; [exact H|]. split; [exact Hn|]. split; [exact Hc|].
  exact (no_projection_at_negative_age unborn H Hn Hc).
Defined.

End EdgeAges.

Section PaymentsByType.

Variable params : CalculationParams.

Lemma projection_point_of_result (le pv : num) (i : nat)
    (pt : ProjectionPoint) :
  (result_of params le pv).(projections) !! i = Some pt ->
  pt.(year) = (Z.of_nat i + 1)%Z /\
  pt.(payment) = Num.round (payment_of params pt.(year)).
Proof.
  intros H. cbn [result_of projections] in H.
  apply projection_points_lookup in H as [Hy Hp].
  split; [lia|]. rewrite Hp, Hy. reflexivity.
Qed.

Lemma payment_of_temporary (yr : Z) :
  params.(annuityType) = "temporary"%string ->
  payment_of params yr
  = if (default 30%Z params.(duration) <? yr)%Z then Fin 0
    else Fin params.(annualAmount).
Proof.
  intros H. unfold payment_of, projected_payment. rewrite H. reflexivity.
Qed.

Lemma payment_of_deferred (yr : Z) :
  params.(annuityType) = "deferred"%string ->
  payment_of params yr
  = if (yr <=? default 0%Z params.(deferralPeriod))%Z then Fin 0
    else Fin params.(annualAmount).
Proof.
  intros H. unfold payment_of, projected_payment. rewrite H. reflexivity.
Qed.

Lemma payment_of_level (yr : Z) :
  String.eqb params.(annuityType) "growing" = false ->
  String.eqb params.(annuityType) "temporary" = false ->
  String.eqb params.(annuityType) "deferred" = false ->
  payment_of params yr = Fin params.(annualAmount).
Proof.
  intros Hg Ht Hd. unfold payment_of, projected_payment.
  rewrite Hg, Ht, Hd. reflexivity.
Qed.

(** X6. A temporary annuity pays [Math.round(annualAmount)] in the years
    up to its duration (30 when absent) and 0 in every projected year
    after it; the years after it are still projected. *)
Theorem temporary_projection_payment :
  params.(annuityType) = "temporary"%string ->
  exists r,
    calculateAnnuity params = Ok r /\
    forall (i : nat) (pt : ProjectionPoint),
      r.(projections) !! i = Some pt ->
      pt.(year) = (Z.of_nat i + 1)%Z /\
      ((pt.(year) <= default 30%Z params.(duration))%Z ->
       pt.(payment) = Num.round (Fin params.(annualAmount))) /\
      ((default 30%Z params.(duration) < pt.(year))%Z ->
       pt.(payment) = Fin 0).
Proof.
  intros Htype.
  destruct (calculateAnnuity_result params) as (le & pv & _ & _ & H).
  eexists. split; [exact H|]. intros i pt Hpt.
  apply projection_point_of_result in Hpt as [Hy Hp].
  split; [exact Hy|]. rewrite Hp, payment_of_temporary by exact Htype.
  split; intros Hd.
  - replace (default 30%Z params.(duration) <? year pt)%Z with false
      by (symmetry; apply Z.ltb_ge; lia).
    reflexivity.
  - replace (default 30%Z params.(duration) <? year pt)%Z with true
      by (symmetry; apply Z.ltb_lt; lia).
    reflexivity.
Qed.

(** X7. A deferred annuity pays 0 in the projected years of its deferral
    period (0 when absent) and [Math.round(annualAmount)] after it. *)
Theorem deferred_projection_payment :
  params.(annuityType) = "deferred"%string ->
  exists r,
    calculateAnnuity params = Ok r /\
    forall (i : nat) (pt : ProjectionPoint),
      r.(projections) !! i = Some pt ->
      pt.(year) = (Z.of_nat i + 1)%Z /\
      ((pt.(year) <= default 0%Z params.(deferralPeriod))%Z ->
       pt.(payment) = Fin 0) /\
      ((default 0%Z params.(deferralPeriod) < pt.(year))%Z ->
       pt.(payment) = Num.round (Fin params.(annualAmount))).
Proof.
  intros Htype.
  destruct (calculateAnnuity_result params) as (le & pv & _ & _ & H).
  eexists. split; [exact H|]. intros i pt Hpt.
  apply projection_point_of_result in Hpt as [Hy Hp].
  split; [exact Hy|]. rewrite Hp, payment_of_deferred by exact Htype.
  split; intros Hd.
  - replace (year pt <=? default 0%Z params.(deferralPeriod))%Z with true
      by (symmetry; apply Z.leb_le; lia).
    reflexivity.
  - replace (year pt <=? default 0%Z params.(deferralPeriod))%Z with false
      by (symmetry; apply Z.leb_gt; lia).
    reflexivity.
Qed.

End PaymentsByType.

Section PaymentsByTypeWitnesses.

Lemma temporary_projection_payment_witness :
  exists r,
    calculateAnnuity temporary_5_years = Ok r /\
    forall (i : nat) (pt : ProjectionPoint),
      r.(projections) !! i = Some pt ->
      pt.(year) = (Z.of_nat i + 1)%Z /\
      ((pt.(year) <= 5)%Z -> pt.(payment) = Num.round (Fin 12000)) /\
      ((5 < pt.(year))%Z -> pt.(payment) = Fin 0).
Proof. exact (temporary_projection_payment temporary_5_years eq_refl). Defined.

Lemma deferred_projection_payment_witness :
  exists r,
    calculateAnnuity deferred_3_years = Ok r /\
    forall (i : nat) (pt : ProjectionPoint),
      r.(projections) !! i = Some pt ->
      pt.(year) = (Z.of_nat i + 1)%Z /\
      ((pt.(year) <= 3)%Z -> pt.(payment) = Fin 0) /\
      ((3 < pt.(year))%Z -> pt.(payment) = Num.round (Fin 12000)).
Proof. exact (deferred_projection_payment deferred_3_years eq_refl). Defined.

End PaymentsByTypeWitnesses.

Section UnknownType.

Lemma projection_points_ext (surv pay pay' : Z -> num) (n : nat) (yr : Z)
    (total : num) :
  (forall z, pay z = pay' z) ->
  projection_points surv pay n yr total
  = projection_points surv pay' n yr total.
Proof.
  intros Hext. revert yr total.
  induction n as [|n IH]; intros yr total; [reflexivity|].
  cbn [projection_points]. rewrite Hext, IH. reflexivity.
Qed.

Lemma known_type_false (t : string) :
  known_type t = false ->
  String.eqb t "simple" = false /\ String.eqb t "reversible" = false /\
  String.eqb t "temporary" = false /\ String.eqb t "deferred" = false /\
  String.eqb t "growing" = false.
Proof.
  unfold known_type. intros H.
  repeat (apply orb_false_elim in H as [H ?]). auto.
Qed.

(** X8. An annuity type that is none of the five known ones takes the
    [default] branch everywhere: the whole result is the one of the same
    record with type "simple". *)
Theorem unknown_type_is_simple (params : CalculationParams) :
  known_type params.(annuityType) = false ->
  calculateAnnuity params = calculateAnnuity (with_type params "simple").
Proof.
  intros H. apply known_type_false in H as (Hs & Hr & Ht & Hd & Hg).
  destruct (calculateLifeExpectancy_ok params.(age) params.(gender)
              params.(mortalityTable)) as [le Hle].
  destruct (calculateSimpleAnnuity_ok params.(age) params.(gender)
              params.(mortalityTable) (Fin params.(annualAmount))
              (Fin params.(interestRate) / Fin 100)%num) as [pv Hpv].
  rewrite (calculateAnnuity_run params le pv);
    [|exact Hle|unfold present_value_by_type;
                 rewrite Hs, Hr, Ht, Hd, Hg; exact Hpv].
  rewrite (calculateAnnuity_run (with_type params "simple") le pv);
    [|exact Hle|exact Hpv].
  unfold result_of. cbn [with_type age gender mortalityTable annualAmount].
  rewrite (projection_points_ext _ (payment_of params)
             (payment_of (with_type params "simple"))); [reflexivity|].
  intros z. rewrite (payment_of_level params) by assumption.
  rewrite (payment_of_level (with_type params "simple")) by reflexivity.
  reflexivity.
Qed.

Lemma unknown_type_is_simple_witness :
  known_type perpetual_typo.(annuityType) = false /\
  calculateAnnuity perpetual_typo
  = calculateAnnuity (with_type perpetual_typo "simple").
Proof.
  assert (H : known_type perpetual_typo.(annuityType) = false)
    by (vm_compute; reflexivity).
  split; [exact H|].
  exact (unknown_type_is_simple perpetual_typo H).
Defined.

End UnknownType.

Section ProjectionShape.

Lemma projection_points_probability (surv pay : Z -> num) (n : nat)
    (yr : Z) (total : num) (i : nat) (pt : ProjectionPoint) :
  snd (projection_points surv pay n yr total) !! i = Some pt ->
  pt.(probability)
  = (Num.round (surv (yr + Z.of_nat i)%Z * Fin 100) / Fin 100)%num.
Proof.
  revert yr total i. induction n as [|n IH]; intros yr total i H.
  - discriminate H.
  - cbn [projection_points snd] in H. destruct i as [|i].
    + apply (inj Some) in H. rewrite <- H. cbn [probability Z.of_nat].
      rewrite Z.add_0_r. reflexivity.
    + apply IH in H. replace (yr + Z.of_nat (S i))%Z
        with (yr + 1 + Z.of_nat i)%Z by lia.
      exact H.
Qed.

(** X9. Whatever the record, at most 30 points are projected, the point
    of index [i] is the one of year [i + 1], and its probability is the
    survival probability over that many years, rounded to two decimal
    places. *)
Theorem projection_years_and_probabilities (params : CalculationParams) :
  exists r,
    calculateAnnuity params = Ok r /\
    (length r.(projections) <= 30)%nat /\
    forall (i : nat) (pt : ProjectionPoint),
      r.(projections) !! i = Some pt ->
      pt.(year) = (Z.of_nat i + 1)%Z /\
      exists s,
        calculateSurvivalProbability params.(age) params.(gender)
          params.(mortalityTable) pt.(year) = Ok s /\
        pt.(probability) = (Num.round (s * Fin 100) / Fin 100)%num.
Proof.
  destruct (calculateAnnuity_result params) as (le & pv & _ & _ & H).
  eexists. split; [exact H|]. split.
  - cbn [result_of projections]. rewrite projection_points_length.
    pose proof (projection_count_le_30 le). lia.
  - intros i pt Hpt. cbn [result_of projections] in Hpt.
    pose proof (projection_points_lookup _ _ _ _ _ _ _ Hpt) as [Hy _].
    apply projection_points_probability in Hpt.
    split; [lia|]. eexists. split.
    + apply calculateSurvivalProbability_value.
    + rewrite Hpt, Hy. reflexivity.
Qed.

Lemma survival_value_step (age : Z) (gender table : string) (y : Z) :
  (0 <= age)%Z ->
  exists s s',
    survival_value age gender table y = Fin s /\
    survival_value age gender table (y + 1) = Fin s' /\
    (0 <= s' <= s)%Q /\ (s <= 1)%Q.
Proof.
  intros Hage. unfold survival_value, calculateSurvivalProbability.
  destruct (resolveCurve_ok table gender) as (l & -> & Hl). cbn [bind].
  destruct (Z.le_gt_cases 0 y) as [Hy|Hy].
  - replace (Z.to_nat (y + 1)) with (S (Z.to_nat y)) by lia.
    rewrite survival_loop_snoc.
    destruct (survival_loop_range l Hl age (Z.to_nat y) 0 1)
      as (b & -> & Hb); [lia|lra|].
    cbn [bind].
    destruct (Z.of_nat (length l) <=? age + (0 + Z.of_nat (Z.to_nat y)))%Z
      eqn:E.
    + exists b, b. repeat split; lra.
    + apply Z.leb_gt in E.
      destruct (survival_factor_range l Hl (age + (0 + Z.of_nat (Z.to_nat y))))
        as (r & -> & Hr); [lia|].
      destruct (survive_step b r) as (c & -> & Hc); [lra|assumption|].
      exists b, c. repeat split; lra.
  - replace (Z.to_nat (y + 1)) with O by lia.
    replace (Z.to_nat y) with O by lia.
    exists 1%Q, 1%Q. repeat split; lra.
Qed.

Lemma displayed_probability (s : Q) :
  (Num.round (Fin s * Fin 100) / Fin 100)%num
  = Fin (Qred (inject_Z (Qfloor (Qred (s * 100) + (1 # 2))) / 100)).
Proof. reflexivity. Qed.

Lemma displayed_probability_mono (s s' : Q) :
  (s' <= s)%Q ->
  ((Num.round (Fin s' * Fin 100) / Fin 100)
   <=? (Num.round (Fin s * Fin 100) / Fin 100))%num = true.
Proof.
  intros H. rewrite !displayed_probability. apply leb_Fin.
  rewrite !Qred_correct.
  unfold Qdiv. apply Qmult_le_compat_r; [|vm_compute; discriminate].
  rewrite <- Zle_Qle. apply Qfloor_resp_le. rewrite ?Qred_correct. lra.
Qed.

Lemma displayed_probability_range (s : Q) :
  (0 <= s <= 1)%Q ->
  exists d, (Num.round (Fin s * Fin 100) / Fin 100)%num = Fin d
            /\ (0 <= d <= 1)%Q.
Proof.
  intros [H0 H1]. rewrite displayed_probability. eexists.
  split; [reflexivity|]. rewrite Qred_correct.
  assert (Hz0 : (0 <= Qfloor (Qred (s * 100) + (1 # 2)))%Z).
  { change 0%Z with (Qfloor 0). apply Qfloor_resp_le.
    rewrite Qred_correct. lra. }
  assert (Hz1 : (Qfloor (Qred (s * 100) + (1 # 2)) <= 100)%Z).
  { apply Z.le_trans with (Qfloor (100 + (1 # 2)));
      [|vm_compute; discriminate].
    apply Qfloor_resp_le. rewrite Qred_correct. lra. }
  split.
  - apply Qle_shift_div_l; [lra|].
    rewrite Qmult_0_l. change 0%Q with (inject_Z 0). rewrite <- Zle_Qle.
    exact Hz0.
  - apply Qle_shift_div_r; [lra|].
    change (1 * 100)%Q with (inject_Z 100). rewrite <- Zle_Qle. exact Hz1.
Qed.

(** X10. The probabilities of the projection are finite numbers between
    0 and 1, and they never go up from a year to the next. *)
Theorem projection_probability_non_increasing (params : CalculationParams) :
  exists r,
    calculateAnnuity params = Ok r /\
    (forall (i : nat) (pt : ProjectionPoint),
        r.(projections) !! i = Some pt ->
        exists d, pt.(probability) = Fin d /\ (0 <= d <= 1)%Q) /\
    (forall (i : nat) (a b : ProjectionPoint),
        r.(projections) !! i = Some a ->
        r.(projections) !! S i = Some b ->
        (b.(probability) <=? a.(probability))%num = true).
Proof.
  destruct (calculateAnnuity_result params) as (le & pv & Hle & _ & H).
  eexists. split; [exact H|].
  destruct (Z.le_gt_cases 0 params.(age)) as [Hage|Hage].
  - split.
    + intros i pt Hpt. cbn [result_of projections] in Hpt.
      apply projection_points_probability in Hpt. rewrite Hpt.
      destruct (survival_value_range params.(age) params.(gender)
                  params.(mortalityTable) (1 + Z.of_nat i) Hage)
        as (s & -> & Hs).
      apply displayed_probability_range. exact Hs.
    + intros i a b Ha Hb. cbn [result_of projections] in Ha, Hb.
      apply projection_points_probability in Ha, Hb. rewrite Ha, Hb.
      destruct (survival_value_step params.(age) params.(gender)
                  params.(mortalityTable) (1 + Z.of_nat i) Hage)
        as (s & s' & Es & Es' & Hs & _).
      replace (1 + Z.of_nat (S i))%Z with (1 + Z.of_nat i + 1)%Z by lia.
      rewrite Es, Es'. apply displayed_probability_mono. lra.
  - rewrite calculateLifeExpectancy_negative_age in Hle by lia.
    apply Ok_inj in Hle. subst le.
    split; [intros i pt Hpt|intros i a b Hpt _]; discriminate Hpt.
Qed.

End ProjectionShape.

(** ** Sign and order of present values *)

Section PresentValues.

Lemma pow_pos (q : Q) (e : Z) :
  (0 < q)%Q -> exists b, Num.pow (Fin q) e = Fin b /\ (0 < b)%Q.
Proof.
  intros Hq. unfold Num.pow.
  destruct (e =? 0)%Z; [exists 1%Q; split; [reflexivity|lra]|].
  destruct (Qeq_bool q 0) eqn:E.
  - apply Qeq_bool_iff in E. lra.
  - eexists; split; [reflexivity|]. rewrite Qred_correct.
    apply Qpower_0_lt. exact Hq.
Qed.

(** A rate given in percent, above -100 %, leaves a positive base
    [1 + rate / 100]. *)
Lemma percent_base (p : Q) :
  (-100 < p)%Q ->
  exists r, (Fin p / Fin 100)%num = Fin r /\ (0 < 1 + r)%Q.
Proof.
  intros Hp. eexists; split; [reflexivity|]. rewrite Qred_correct.
  assert (Hdiv : (p / 100 == p * (1 # 100))%Q) by reflexivity.
  rewrite Hdiv. lra.
Qed.

Lemma discounted_nonneg (a s r : Q) (t : Z) :
  (0 <= a)%Q -> (0 <= s)%Q -> (0 < 1 + r)%Q ->
  exists d, discounted (Fin a) (Fin s) (Fin r) t = Fin d /\ (0 <= d)%Q.
Proof.
  intros Ha Hs Hr. unfold discounted.
  assert (Hbase : (Fin 1 + Fin r)%num = Fin (Qred (1 + r))) by reflexivity.
  rewrite Hbase.
  destruct (pow_pos (Qred (1 + r)) (- t)) as (b & -> & Hb);
    [rewrite Qred_correct; exact Hr|].
  eexists; split; [reflexivity|]. rewrite !Qred_correct.
  apply Qmult_le_0_compat; [apply Qmult_le_0_compat; assumption|lra].
Qed.

Variables (age : Z) (gender table : string).
Hypothesis Hage : (0 <= age)%Z.

Lemma add_term (x d : Q) :
  (0 <= d)%Q ->
  exists y, (Fin x + Fin d)%num = Fin y /\ (x <= y)%Q.
Proof.
  intros Hd. eexists; split; [reflexivity|]. rewrite Qred_correct. lra.
Qed.

Lemma simple_loop_grows (a r : Q) (n : nat) (t : Z) (x : Q) :
  (0 <= a)%Q -> (0 < 1 + r)%Q ->
  exists y, simple_loop age gender table (Fin a) (Fin r) n t (Fin x)
            = Ok (Fin y) /\ (x <= y)%Q.
Proof.
  intros Ha Hr. revert t x. induction n as [|n IH]; intros t x.
  - exists x. split; [reflexivity|lra].
  - cbn [simple_loop]. rewrite calculateSurvivalProbability_value.
    cbn [bind].
    destruct (survival_value_range age gender table t Hage) as (s & -> & Hs).
    destruct (discounted_nonneg a s r t) as (d & -> & Hd); [lra|lra|lra|].
    destruct (add_term x d Hd) as (y & -> & Hy).
    destruct (Fin s <? Fin 0.01)%num; [exists y; auto|].
    destruct (IH (t + 1)%Z y) as (z & -> & Hz). exists z. split; [reflexivity|lra].
Qed.

Lemma temporary_loop_grows (a r : Q) (n : nat) (t : Z) (x : Q) :
  (0 <= a)%Q -> (0 < 1 + r)%Q ->
  exists y, temporary_loop age gender table (Fin a) (Fin r) n t (Fin x)
            = Ok (Fin y) /\ (x <= y)%Q.
Proof.
  intros Ha Hr. revert t x. induction n as [|n IH]; intros t x.
  - exists x. split; [reflexivity|lra].
  - cbn [temporary_loop]. rewrite calculateSurvivalProbability_value.
    cbn [bind].
    destruct (survival_value_range age gender table t Hage) as (s & -> & Hs).
    destruct (discounted_nonneg a s r t) as (d & -> & Hd); [lra|lra|lra|].
    destruct (add_term x d Hd) as (y & -> & Hy).
    destruct (IH (t + 1)%Z y) as (z & -> & Hz). exists z. split; [reflexivity|lra].
Qed.

Lemma growing_loop_grows (a r g : Q) (n : nat) (t : Z) (x : Q) :
  (0 <= a)%Q -> (0 < 1 + r)%Q -> (0 < 1 + g)%Q ->
  exists y, growing_loop age gender table (Fin a) (Fin r) (Fin g) n t (Fin x)
            = Ok (Fin y) /\ (x <= y)%Q.
Proof.
  intros Ha Hr Hg. revert t x. induction n as [|n IH]; intros t x.
  - exists x. split; [reflexivity|lra].
  - cbn [growing_loop]. rewrite calculateSurvivalProbability_value.
    cbn [bind].
    destruct (survival_value_range age gender table t Hage) as (s & -> & Hs).
    assert (Hbase : (Fin 1 + Fin g)%num = Fin (Qred (1 + g))) by reflexivity.
    rewrite Hbase.
    destruct (pow_pos (Qred (1 + g)) (t - 1)) as (b & -> & Hb);
      [rewrite Qred_correct; exact Hg|].
    assert (Hpay : (Fin a * Fin b)%num = Fin (Qred (a * b))) by reflexivity.
    rewrite Hpay.
    destruct (discounted_nonneg (Qred (a * b)) s r t) as (d & -> & Hd);
      [rewrite Qred_correct; apply Qmult_le_0_compat; lra|lra|lra|].
    destruct (add_term x d Hd) as (y & -> & Hy).
    destruct (Fin s <? Fin 0.01)%num; [exists y; auto|].
    destruct (IH (t + 1)%Z y) as (z & -> & Hz). exists z. split; [reflexivity|lra].
Qed.

(** The loop of the temporary annuity, run [n + m] times, is the loop run
    [n] times and then [m] times more. *)
Lemma temporary_loop_app (amount rate : num) (n m : nat) (t : Z) (pv : num) :
  temporary_loop age gender table amount rate (n + m) t pv
  = let* x := temporary_loop age gender table amount rate n t pv in
    temporary_loop age gender table amount rate m (t + Z.of_nat n) x.
Proof.
  revert t pv. induction n as [|n IH]; intros t pv.
  - cbn [temporary_loop bind Nat.add Z.of_nat]. rewrite Z.add_0_r. reflexivity.
  - cbn [temporary_loop Nat.add]. rewrite calculateSurvivalProbability_value.
    cbn [bind]. rewrite IH.
    replace (t + 1 + Z.of_nat n)%Z with (t + Z.of_nat (S n))%Z by lia.
    reflexivity.
Qed.

Lemma temporary_annuity_values
    (a r : Q) (d d' : Z) :
  (0 <= a)%Q -> (0 < 1 + r)%Q -> (d <= d')%Z ->
  exists x y,
    calculateTemporaryAnnuity age gender table (Fin a) (Fin r) d = Ok (Fin x) /\
    calculateTemporaryAnnuity age gender table (Fin a) (Fin r) d' = Ok (Fin y) /\
    (0 <= x <= y)%Q /\
    ((d <= 0)%Z -> x = 0%Q).
Proof.
  intros Ha Hr Hd. unfold calculateTemporaryAnnuity.
  replace (Z.to_nat d') with (Z.to_nat d + (Z.to_nat d' - Z.to_nat d))%nat
    by lia.
  rewrite temporary_loop_app.
  destruct (temporary_loop_grows a r (Z.to_nat d) 1 0 Ha Hr) as (x & Ex & Hx).
  rewrite Ex. cbn [bind].
  destruct (temporary_loop_grows a r (Z.to_nat d' - Z.to_nat d)
              (1 + Z.of_nat (Z.to_nat d)) x Ha Hr) as (y & -> & Hy).
  exists x, y. repeat split; try assumption.
  intros Hd0. replace (Z.to_nat d) with O in Ex by lia.
  cbn [temporary_loop] in Ex. apply Ok_inj in Ex. congruence.
Qed.

End PresentValues.

Section TemporaryDuration.

(** X14. With an age, an amount and a discount rate that are not
    negative, a sex and a table id that are not names of inherited
    properties, and durations below 2^53, the present value of a
    temporary annuity is not negative and never goes down when the
    duration is extended; it is 0 for a duration of 0 years or less. *)
Theorem temporary_annuity_grows_with_duration
    (age : Z) (gender table : string) (a r : Q) (d d' : Z) :
  (0 <= age)%Z -> own_key_lookup table gender ->
  (0 <= a)%Q -> (0 <= r)%Q -> (d <= d')%Z -> (d' < 2 ^ 53)%Z ->
  exists x y,
    calculateTemporaryAnnuity age gender table (Fin a) (Fin r) d = Ok x /\
    calculateTemporaryAnnuity age gender table (Fin a) (Fin r) d' = Ok y /\
    (Fin 0 <=? x)%num = true /\
    (x <=? y)%num = true /\
    ((d <= 0)%Z -> x = Fin 0).
Proof.
  intros Hage _ Ha Hr Hd _.
  destruct (temporary_annuity_values age gender table Hage a r d d')
    as (x & y & Hx & Hy & Hxy & Hx0); [exact Ha|lra|exact Hd|].
  exists (Fin x), (Fin y). split; [exact Hx|]. split; [exact Hy|].
  split; [apply leb_Fin; lra|]. split; [apply leb_Fin; lra|].
  intros H0. rewrite (Hx0 H0). reflexivity.
Qed.

Lemma temporary_annuity_grows_with_duration_witness :
  (0 <= 65)%Z /\ own_key_lookup "TGH05" "male" /\
  (0 <= 12000)%Q /\ (0 <= 0.025)%Q /\ (10 <= 20)%Z /\ (20 < 2 ^ 53)%Z /\
  exists x y,
    calculateTemporaryAnnuity 65 "male" "TGH05" (Fin 12000) (Fin 0.025) 10
    = Ok x /\
    calculateTemporaryAnnuity 65 "male" "TGH05" (Fin 12000) (Fin 0.025) 20
    = Ok y /\
    (Fin 0 <=? x)%num = true /\
    (x <=? y)%num = true.
Proof.
  assert (H1 : (0 <= 65)%Z) by lia.
  assert (Hn : own_key_lookup "TGH05" "male") by (split; reflexivity).
  assert (H2 : (0 <= 12000)%Q) by (vm_compute; discriminate).
  assert (H3 : (0 <= 0.025)%Q) by (vm_compute; discriminate).
  assert (H4 : (10 <= 20)%Z) by lia.
  assert (H5 : (20 < 2 ^ 53)%Z) by (vm_compute; reflexivity).
  split; [exact H1|]. split; [exact Hn|]. split; [exact H2|].
  split; [exact H3|]. split; [exact H4|]. split; [exact H5|].
  destruct (temporary_annuity_grows_with_duration 65 "male" "TGH05"
              12000 0.025 10 20 H1 Hn H2 H3 H4 H5)
    as (x & y & Hx & Hy & Hx0 & Hxy & _).
  exists x, y. split; [exact Hx|]. split; [exact Hy|].
  split; [exact Hx0|exact Hxy].
Defined.

End TemporaryDuration.

Section ResultSigns.

Lemma real_rate_base (r g : Q) :
  (0 < 1 + r)%Q -> (0 < 1 + g)%Q ->
  exists rr, ((Fin r - Fin g) / (Fin 1 + Fin g))%num = Fin rr
             /\ (0 < 1 + rr)%Q.
Proof.
  intros Hr Hg. cbn [Num.sub Num.add Num.div].
  destruct (Qeq_bool (Qred (1 + g)) 0) eqn:E.
  - apply Qeq_bool_iff in E. rewrite Qred_correct in E. lra.
  - eexists; split; [reflexivity|]. rewrite !Qred_correct.
    assert (Heq : ((r - g) / (1 + g) == (1 + r) / (1 + g) - 1)%Q)
      by (field; lra).
    rewrite Heq.
    assert (Hpos : (0 < (1 + r) / (1 + g))%Q)
      by (apply Qlt_shift_div_l; lra).
    lra.
Qed.

Lemma round_nonneg (v : Q) :
  (0 <= v)%Q -> exists q, Num.round (Fin v) = Fin q /\ (0 <= q)%Q.
Proof.
  intros Hv. eexists; split; [reflexivity|].
  change 0%Q with (inject_Z 0). rewrite <- Zle_Qle.
  change 0%Z with (Qfloor 0). apply Qfloor_resp_le. lra.
Qed.

Lemma scaled_amount_nonneg (a p : Q) :
  (0 <= a)%Q -> (0 <= p)%Q ->
  exists b, (Fin a * (Fin p / Fin 100))%num = Fin b /\ (0 <= b)%Q.
Proof.
  intros Ha Hp. eexists; split; [reflexivity|]. rewrite !Qred_correct.
  assert (Hdiv : (p / 100 == p * (1 # 100))%Q) by reflexivity.
  rewrite Hdiv. apply Qmult_le_0_compat; lra.
Qed.

Variable params : CalculationParams.
Hypothesis Hage : (0 <= params.(age))%Z.
Hypothesis Hamount : (0 <= params.(annualAmount))%Q.
Hypothesis Hrate : (-100 < params.(interestRate))%Q.

Lemma reversible_value (spouse : Z) (reversal : Q) :
  (0 <= spouse)%Z -> (0 <= reversal)%Q ->
  exists v w,
    calculateSimpleAnnuity params.(age) params.(gender)
      params.(mortalityTable) (Fin params.(annualAmount))
      (Fin params.(interestRate) / Fin 100) = Ok (Fin v) /\
    calculateReversibleAnnuity params.(age) params.(gender) spouse
      params.(mortalityTable) (Fin params.(annualAmount))
      (Fin params.(interestRate) / Fin 100) (Fin reversal) = Ok (Fin w) /\
    (0 <= v <= w)%Q.
Proof.
  intros Hspouse Hrev. unfold calculateReversibleAnnuity, calculateSimpleAnnuity.
  destruct (percent_base _ Hrate) as (r & -> & Hr).
  destruct (simple_loop_grows params.(age) params.(gender)
              params.(mortalityTable) Hage params.(annualAmount) r 50 1 0
              Hamount Hr) as (v & -> & Hv).
  cbn [bind].
  destruct (scaled_amount_nonneg _ _ Hamount Hrev) as (b & -> & Hb).
  destruct (simple_loop_grows spouse
              (if String.eqb params.(gender) "male" then "female"%string
               else "male"%string)
              params.(mortalityTable) Hspouse b r 50 1 0 Hb Hr)
    as (u & -> & Hu).
  cbn [bind]. exists v. eexists. split; [reflexivity|].
  split; [reflexivity|]. rewrite !Qred_correct. lra.
Qed.

Lemma present_value_by_type_nonneg :
  (params.(annuityType) = "reversible"%string ->
   (0 <= default (params.(age) - 3) params.(spouseAge))%Z /\
   (0 <= default 60 params.(reversalRate))%Q) ->
  (params.(annuityType) = "growing"%string ->
   (-100 < default 0 params.(growthRate))%Q) ->
  exists v, present_value_by_type params = Ok (Fin v) /\ (0 <= v)%Q.
Proof.
  intros Hrev Hgrow. unfold present_value_by_type.
  destruct (String.eqb (annuityType params) "simple").
  { destruct (reversible_value 0 0) as (v & w & Hv & _ & Hv0); [lia|lra|].
    exists v. split; [exact Hv|lra]. }
  destruct (String.eqb (annuityType params) "reversible") eqn:Er.
  { apply String.eqb_eq in Er. destruct (Hrev Er) as [Hs Hp].
    destruct (reversible_value _ _ Hs Hp) as (v & w & _ & Hw & Hvw).
    exists w. split; [exact Hw|lra]. }
  destruct (percent_base _ Hrate) as (r & Er' & Hr).
  destruct (String.eqb (annuityType params) "temporary").
  { rewrite Er'. unfold calculateTemporaryAnnuity.
    destruct (temporary_loop_grows params.(age) params.(gender)
                params.(mortalityTable) Hage params.(annualAmount) r
                (Z.to_nat (default 30%Z params.(duration))) 1 0 Hamount Hr)
      as (v & -> & Hv).
    exists v. auto. }
  destruct (String.eqb (annuityType params) "deferred").
  { rewrite Er'. unfold calculateDeferredAnnuity.
    destruct (simple_loop_grows params.(age) params.(gender)
                params.(mortalityTable) Hage params.(annualAmount) r
                (Z.to_nat (50 - default 0%Z params.(deferralPeriod)))
                (default 0%Z params.(deferralPeriod) + 1) 0 Hamount Hr)
      as (v & -> & Hv).
    exists v. auto. }
  destruct (String.eqb (annuityType params) "growing") eqn:Eg.
  { apply String.eqb_eq in Eg. specialize (Hgrow Eg).
    rewrite Er'. unfold calculateGrowingAnnuity.
    destruct (percent_base _ Hgrow) as (g & -> & Hg). cbv zeta.
    destruct (real_rate_base r g Hr Hg) as (rr & -> & Hrr).
    destruct (growing_loop_grows params.(age) params.(gender)
                params.(mortalityTable) Hage params.(annualAmount) rr g
                50 1 0 Hamount Hrr Hg) as (v & -> & Hv).
    exists v. auto. }
  destruct (reversible_value 0 0) as (v & w & Hv & _ & Hv0); [lia|lra|].
  exists v. split; [exact Hv|lra].
Qed.

End ResultSigns.

Section FormRanges.

Variable params : CalculationParams.
Hypothesis Hform : within_form_ranges params = true.

Lemma in_range_Z_bounds (lo hi z : Z) :
  in_range_Z lo hi z = true -> (lo <= z <= hi)%Z.
Proof. unfold in_range_Z. intros H. apply andb_prop in H as [H1 H2]. lia. Qed.

Lemma in_range_Q_bounds (lo hi q : Q) :
  in_range_Q lo hi q = true -> (lo <= q <= hi)%Q.
Proof.
  unfold in_range_Q. intros H. apply andb_prop in H as [H1 H2].
  split; apply Qle_bool_iff; assumption.
Qed.

Lemma form_ranges_bounds :
  (0 <= params.(age))%Z /\
  (0 < params.(annualAmount))%Q /\
  (0 <= params.(interestRate))%Q /\
  (0 <= default (params.(age) - 3) params.(spouseAge))%Z /\
  (0 <= default 60 params.(reversalRate))%Q /\
  (0 <= default 0 params.(growthRate))%Q.
Proof.
  pose proof Hform as H. unfold within_form_ranges in H.
  repeat (apply andb_prop in H as [H ?]).
  repeat match goal with
         | X : in_range_Z _ _ _ = true |- _ => apply in_range_Z_bounds in X
         | X : in_range_Q _ _ _ = true |- _ => apply in_range_Q_bounds in X
         | X : Qle_bool _ _ = true |- _ => apply Qle_bool_iff in X
         end.
  repeat split; try lia; lra.
Qed.

Lemma form_present_value :
  exists v, present_value_by_type params = Ok (Fin v) /\ (0 <= v)%Q.
Proof.
  destruct form_ranges_bounds as (Hage & Hamount & Hrate & Hs & Hp & Hg).
  apply present_value_by_type_nonneg;
    [exact Hage|lra|lra|intros _; split; assumption|intros _; lra].
Qed.

(** X11. Within the ranges the form validates, the present value is not
    negative (and is no [NaN]), for every annuity type. *)
Theorem present_value_nonneg :
  exists r,
    calculateAnnuity params = Ok r /\
    (Fin 0 <=? r.(presentValue))%num = true.
Proof.
  destruct form_present_value as (v & Hpv & Hv).
  destruct (calculateLifeExpectancy_ok params.(age) params.(gender)
              params.(mortalityTable)) as [le Hle].
  destruct (round_nonneg v Hv) as (q & Hq & Hq0).
  exists (result_of params le (Fin v)).
  split; [apply calculateAnnuity_run; assumption|].
  cbn [result_of presentValue]. rewrite Hq. apply leb_Fin. exact Hq0.
Qed.

(** X13. A reversion never lowers the present value: within the ranges
    the form validates, a reversible annuity is worth at least the
    simple annuity of the same record. *)
Theorem reversion_never_lowers_present_value :
  params.(annuityType) = "reversible"%string ->
  exists r rs,
    calculateAnnuity params = Ok r /\
    calculateAnnuity (with_type params "simple") = Ok rs /\
    (rs.(presentValue) <=? r.(presentValue))%num = true.
Proof.
  intros Htype.
  destruct form_ranges_bounds as (Hage & Hamount & Hrate & Hs & Hp & Hg).
  destruct (reversible_value params Hage) with
    (spouse := default (params.(age) - 3)%Z params.(spouseAge))
    (reversal := default 60%Q params.(reversalRate))
    as (v & w & Hv & Hw & Hvw); try assumption; try lra.
  destruct (calculateLifeExpectancy_ok params.(age) params.(gender)
              params.(mortalityTable)) as [le Hle].
  exists (result_of params le (Fin w)),
         (result_of (with_type params "simple") le (Fin v)).
  split.
  { apply calculateAnnuity_run; [exact Hle|].
    unfold present_value_by_type. rewrite Htype. exact Hw. }
  split.
  { apply calculateAnnuity_run; [exact Hle|exact Hv]. }
  cbn [result_of presentValue]. apply round_mono. lra.
Qed.

End FormRanges.

Section FormRangesWitnesses.

Lemma present_value_nonneg_witness :
  within_form_ranges growing_2_percent = true /\
  exists r,
    calculateAnnuity growing_2_percent = Ok r /\
    (Fin 0 <=? r.(presentValue))%num = true.
Proof.
  assert (H : within_form_ranges growing_2_percent = true)
    by (vm_compute; reflexivity).
  split; [exact H|].
  exact (present_value_nonneg growing_2_percent H).
Defined.

Lemma reversion_never_lowers_present_value_witness :
  within_form_ranges scenarioD = true /\
  exists r rs,
    calculateAnnuity scenarioD = Ok r /\
    calculateAnnuity (with_type scenarioD "simple") = Ok rs /\
    (rs.(presentValue) <=? r.(presentValue))%num = true.
Proof.
  assert (H : within_form_ranges scenarioD = true)
    by (vm_compute; reflexivity).
  split; [exact H|].
  exact (reversion_never_lowers_present_value scenarioD H eq_refl).
Defined.

End FormRangesWitnesses.

Section TotalPayments.

Lemma projection_points_total (surv pay : Z -> num) (n : nat) (yr : Z)
    (t : Q) :
  (forall z : Z, (1 <= z)%Z ->
     exists b s, pay z = Fin b /\ surv z = Fin s /\ (0 <= b)%Q /\ (0 <= s)%Q) ->
  (1 <= yr)%Z ->
  exists t', fst (projection_points surv pay n yr (Fin t)) = Fin t'
             /\ (t <= t')%Q.
Proof.
  intros Hterm. revert yr t. induction n as [|n IH]; intros yr t Hy.
  - exists t. split; [reflexivity|lra].
  - cbn [projection_points fst].
    destruct (running_total_grows surv pay Hterm yr t Hy) as (t1 & -> & H1).
    destruct (IH (yr + 1)%Z t1) as (t2 & -> & H2); [lia|].
    exists t2. split; [reflexivity|lra].
Qed.

Lemma total_payments_value (params : CalculationParams) :
  (0 <= params.(annualAmount))%Q ->
  (params.(annuityType) = "growing"%string ->
   (-100 <= default 0%Q params.(growthRate))%Q) ->
  exists r q,
    calculateAnnuity params = Ok r /\
    r.(totalPayments) = Fin q /\ (0 <= q)%Q.
Proof.
  intros Hamount Hgrowth.
  destruct (calculateAnnuity_result params) as (le & pv & Hle & _ & H).
  assert (Ht : exists t,
             fst (projection_points
                    (survival_value params.(age) params.(gender)
                       params.(mortalityTable))
                    (payment_of params) (Z.to_nat (projection_count le)) 1
                    (Fin 0)) = Fin t /\ (0 <= t)%Q).
  { destruct (Z.le_gt_cases 0 params.(age)) as [Hage|Hage].
    - apply projection_points_total; [|lia].
      intros z Hz.
      destruct (payment_of_nonneg params z Hz Hamount Hgrowth)
        as (c & Hc & Hc0).
      destruct (survival_value_range params.(age) params.(gender)
                  params.(mortalityTable) z Hage) as (s & Hs & Hs0).
      exists c, s. repeat split; try assumption. lra.
    - rewrite calculateLifeExpectancy_negative_age in Hle by lia.
      apply Ok_inj in Hle. subst le.
      exists 0%Q. split; [reflexivity|lra]. }
  destruct Ht as (t & Et & Ht).
  destruct (round_nonneg t Ht) as (q & Hq & Hq0).
  exists (result_of params le pv), q. split; [exact H|].
  cbn [result_of totalPayments]. rewrite Et. split; [exact Hq|exact Hq0].
Qed.

(** X12. Within the ranges the form validates, the total of payments is
    not negative (and is no [NaN]). *)
Theorem total_payments_nonneg (params : CalculationParams) :
  within_form_ranges params = true ->
  exists r,
    calculateAnnuity params = Ok r /\
    (Fin 0 <=? r.(totalPayments))%num = true.
Proof.
  intros Hform.
  destruct (form_ranges_bounds params Hform)
    as (_ & Hamount & _ & _ & _ & Hg).
  destruct (total_payments_value params) as (r & q & Hr & Hq & Hq0);
    [lra|intros _; lra|].
  exists r. split; [exact Hr|]. rewrite Hq. apply leb_Fin. exact Hq0.
Qed.

Lemma total_payments_nonneg_witness :
  within_form_ranges deferred_3_years = true /\
  exists r,
    calculateAnnuity deferred_3_years = Ok r /\
    (Fin 0 <=? r.(totalPayments))%num = true.
Proof.
  assert (H : within_form_ranges deferred_3_years = true)
    by (vm_compute; reflexivity).
  split; [exact H|].
  exact (total_payments_nonneg deferred_3_years H).
Defined.

End TotalPayments.

(** * The calculation history *)

Section HistoryFacts.

Lemma take_app_take {A : Type} (n : nat) (l k : list A) :
  take n (l ++ take n k) = take n (l ++ k).
Proof.
  rewrite !take_app, take_take. f_equal. f_equal. lia.
Qed.

Lemma saved_history (items : list History.HistoryItem)
    (history : list History.HistoryItem) :
  (length history <= 50)%nat ->
  fold_left (fun h item => History.saveToHistory item h) items history
  = take 50 (rev items ++ history).
Proof.
  revert history. induction items as [|x items IH]; intros history Hlen.
  - cbn [fold_left rev app]. symmetry. apply take_ge. exact Hlen.
  - cbn [fold_left rev]. rewrite IH.
    + unfold History.saveToHistory. rewrite take_app_take.
      rewrite <- app_assoc. reflexivity.
    + unfold History.saveToHistory. rewrite length_take. lia.
Qed.

(** X15. Submitting calculations one after the other, from a stored
    history of at most 50 entries, leaves the 50 most recent entries,
    the most recent first: the submitted ones in reverse order, then the
    old ones, cut at 50.  A single submission puts its entry first and
    never stores more than 50. *)
Theorem history_keeps_50_most_recent
    (items history : list History.HistoryItem) :
  (length history <= 50)%nat ->
  let stored :=
    fold_left (fun h item => History.saveToHistory item h) items history in
  stored = take 50 (rev items ++ history) /\
  (length stored <= 50)%nat /\
  (forall item h, History.saveToHistory item h !! 0%nat = Some item /\
                  (length (History.saveToHistory item h) <= 50)%nat).
Proof.
  intros Hlen stored. unfold stored.
  rewrite saved_history by exact Hlen. split; [reflexivity|]. split.
  - rewrite length_take. lia.
  - intros item h. unfold History.saveToHistory. split; [reflexivity|].
    rewrite length_take. lia.
Qed.

Lemma history_keeps_50_most_recent_witness :
  (length [sample_item "1"] <= 50)%nat /\
  fold_left (fun h item => History.saveToHistory item h)
    [sample_item "2"; sample_item "3"] [sample_item "1"]
  = [sample_item "3"; sample_item "2"; sample_item "1"].
Proof.
  assert (H : (length [sample_item "1"] <= 50)%nat) by (cbn; lia).
  split; [exact H|].
  exact (proj1 (history_keeps_50_most_recent
                  [sample_item "2"; sample_item "3"] [sample_item "1"] H)).
Defined.

Lemma sublist_bool_filter {A : Type} (f : A -> bool) (l : list A) :
  sublist (List.filter f l) l.
Proof.
  induction l as [|x l IH]; [constructor|].
  cbn [List.filter]. destruct (f x).
  - apply sublist_skip. exact IH.
  - apply sublist_cons. exact IH.
Qed.

(** X16. The filtered history keeps the order of the stored one, and an
    entry is shown exactly when it is stored, passes the search test
    (if a search term is set) and has the chosen type (unless the type
    filter is "all"). *)
Theorem filterHistory_shows
    (matches : string -> History.HistoryItem -> bool)
    (history : list History.HistoryItem) (searchTerm filterType : string) :
  sublist (History.filterHistory matches history searchTerm filterType)
    history /\
  forall item,
    In item (History.filterHistory matches history searchTerm filterType)
    <-> In item history /\
        (searchTerm = ""%string \/ matches searchTerm item = true) /\
        (filterType = "all"%string \/ item.(History.type) = filterType).
Proof.
  unfold History.filterHistory. cbv zeta.
  assert (Hs : String.eqb searchTerm "" = true <-> searchTerm = ""%string)
    by apply String.eqb_eq.
  assert (Hf : String.eqb filterType "all" = true <-> filterType = "all"%string)
    by apply String.eqb_eq.
  destruct (String.eqb searchTerm "");
    destruct (String.eqb filterType "all"); cbn [negb].
  - split; [reflexivity|]. intros item. tauto.
  - split; [apply sublist_bool_filter|]. intros item.
    rewrite filter_In, String.eqb_eq.
    assert (filterType <> "all"%string) by (intros E; apply Hf in E; discriminate E).
    tauto.
  - split; [apply sublist_bool_filter|]. intros item.
    rewrite filter_In.
    assert (searchTerm <> ""%string) by (intros E; apply Hs in E; discriminate E).
    tauto.
  - split.
    + etransitivity; apply sublist_bool_filter.
    + intros item. rewrite !filter_In, String.eqb_eq.
      assert (filterType <> "all"%string)
        by (intros E; apply Hf in E; discriminate E).
      assert (searchTerm <> ""%string)
        by (intros E; apply Hs in E; discriminate E).
      tauto.
Qed.

Lemma includes_In (x : string) (l : list string) :
  History.includes x l = true <-> In x l.
Proof.
  unfold History.includes. rewrite existsb_exists. split.
  - intros (y & Hy & E). apply String.eqb_eq in E. subst y. exact Hy.
  - intros H. exists x. split; [exact H|apply String.eqb_refl].
Qed.

Lemma includes_not_In (x : string) (l : list string) :
  History.includes x l = false <-> ~ In x l.
Proof.
  rewrite <- includes_In. destruct (History.includes x l); split;
    congruence.
Qed.

(** X17. Clicking an entry toggles it: its id is selected afterwards
    exactly when it was not before, and the other ids stay as they
    were. *)
Theorem handleSelectItem_toggles (id : string) (prev : list string) :
  (In id (History.handleSelectItem id prev) <-> ~ In id prev) /\
  (forall x, x <> id ->
             (In x (History.handleSelectItem id prev) <-> In x prev)).
Proof.
  unfold History.handleSelectItem.
  destruct (History.includes id prev) eqn:E.
  - apply includes_In in E. split.
    + rewrite filter_In, negb_true_iff, String.eqb_neq. tauto.
    + intros x Hx. rewrite filter_In, negb_true_iff, String.eqb_neq. tauto.
  - apply includes_not_In in E. split.
    + rewrite in_app_iff. cbn [In]. tauto.
    + intros x Hx. rewrite in_app_iff. cbn [In]. split; [|tauto].
      intros [H|[H|[]]]; [exact H|congruence].
Qed.

(** X18. A bulk deletion removes exactly the stored entries whose id is
    selected, keeps the others in their order, and clears the selection;
    what it removes is what an export of the selection would have
    taken, and nothing is left to export afterwards. *)
Theorem handleBulkDelete_removes_selection (st : History.State) :
  let st' := History.handleBulkDelete st in
  st'.(History.selectedItems) = [] /\
  sublist st'.(History.history) st.(History.history) /\
  (forall item,
      In item st'.(History.history)
      <-> In item st.(History.history) /\
          ~ In item.(History.id) st.(History.selectedItems)) /\
  (length st'.(History.history) + length (History.selectedData st)
   = length st.(History.history))%nat /\
  History.selectedData st' = [].
Proof.
  cbv zeta. unfold History.handleBulkDelete, History.selectedData.
  cbn [History.history History.selectedItems].
  split; [reflexivity|]. split; [apply sublist_bool_filter|]. split.
  - intros item. rewrite filter_In, negb_true_iff, includes_not_In. tauto.
  - split.
    + rewrite Nat.add_comm. apply List.filter_length.
    + induction (List.filter _ (History.history st)) as [|x l IH];
        [reflexivity|exact IH].
Qed.

Lemma filter_all {A : Type} (f : A -> bool) (l : list A) :
  (forall x, In x l -> f x = true) -> List.filter f l = l.
Proof.
  induction l as [|x l IH]; intros H; [reflexivity|].
  cbn [List.filter]. rewrite (H x) by (left; reflexivity).
  f_equal. apply IH. intros y Hy. apply H. right. exact Hy.
Qed.

(** X19. Deleting an id removes every stored entry with that id and
    unselects it, keeping the other entries and selected ids; deleting
    an id that is neither stored nor selected changes nothing. *)
Theorem handleDelete_removes_id (target : string) (st : History.State) :
  let st' := History.handleDelete target st in
  (forall item,
      In item st'.(History.history)
      <-> In item st.(History.history) /\ item.(History.id) <> target) /\
  (forall x,
      In x st'.(History.selectedItems)
      <-> In x st.(History.selectedItems) /\ x <> target) /\
  ((forall item, In item st.(History.history) ->
                 item.(History.id) <> target) ->
   ~ In target st.(History.selectedItems) ->
   st' = st).
Proof.
  cbv zeta. unfold History.handleDelete.
  cbn [History.history History.selectedItems]. split; [|split].
  - intros item. rewrite filter_In, negb_true_iff, String.eqb_neq. tauto.
  - intros x. rewrite filter_In, negb_true_iff, String.eqb_neq. tauto.
  - intros Hh Hs. destruct st as [h sel].
    cbn [History.history History.selectedItems] in *. f_equal.
    + apply filter_all. intros item Hitem.
      apply negb_true_iff, String.eqb_neq. apply Hh. exact Hitem.
    + apply filter_all. intros x Hx.
      apply negb_true_iff, String.eqb_neq. intros ->. contradiction.
Qed.

(** X20. "Select all" compares lengths only.  From a selection whose
    length differs from the number of shown entries it selects the ids
    of all shown entries, in their order, and a second click then clears
    the selection. *)
Theorem handleSelectAll_twice (selectedItems : list string)
    (filteredHistory : list History.HistoryItem) :
  length selectedItems <> length filteredHistory ->
  History.handleSelectAll selectedItems filteredHistory
  = map History.id filteredHistory /\
  History.handleSelectAll
    (History.handleSelectAll selectedItems filteredHistory) filteredHistory
  = [].
Proof.
  intros Hlen. unfold History.handleSelectAll.
  replace (length selectedItems =? length filteredHistory)%nat with false
    by (symmetry; apply Nat.eqb_neq; exact Hlen).
  split; [reflexivity|].
  rewrite length_map, Nat.eqb_refl. reflexivity.
Qed.

Lemma handleSelectAll_twice_witness :
  length ["1"%string] <> length (History.history sample_state) /\
  History.handleSelectAll ["1"%string] (History.history sample_state)
  = ["3"; "2"; "1"]%string.
Proof.
  assert (H : length ["1"%string] <> length (History.history sample_state))
    by (cbn; lia).
  split; [exact H|].
  exact (proj1 (handleSelectAll_twice ["1"%string]
                  (History.history sample_state) H)).
Defined.

End HistoryFacts.

